(** * HTTP request-line parsing and rendering (inc/request_line.hpp)

    A shallow embedding of [http::Request_line]: the constructor that parses
    the start line of a request out of a character buffer, the field
    accessors and setters, and [to_string].

    Conventions of the embedding:
    - a [std::experimental::string_view] / [std::string] is a list of
      characters ([bytes]); [substr], [find] and [length] are written out on
      lists;
    - a C++ exception is a value of [error] returned through [result];
    - the [std::regex] of the constructor is a value of [regex], run by a
      backtracking matcher with greedy quantifiers, ordered alternation and
      numbered capture groups, as the ECMAScript grammar prescribes;
    - [unsigned] is 32 bits wide; the width of [unsigned long] (the range
      of [std::stoul]) is the parameter [ulong_bits] of the constructor:
      32 on ILP32 and LLP64 targets, 64 on LP64 ones. *)

From Stdlib Require Import Ascii String List ZArith NArith Bool Lia Arith.
Import ListNotations.

Set Implicit Arguments.

(** ** Character data *)

Definition bytes := list ascii.

(** String literals of the source, as character lists. *)
Definition bs (s : string) : bytes := list_ascii_of_string s.

Definition CR : ascii := ascii_of_nat 13.
Definition LF : ascii := ascii_of_nat 10.
Definition SP : ascii := ascii_of_nat 32.
Definition CRLF : bytes := [CR; LF].

(** [<cctype>] classification in the "C" locale, which is what the regex
    traits of [std::regex] consult for the class escapes. *)
Definition isspace (a : ascii) : bool :=
  let n := N_of_ascii a in
  (((9 <=? n) && (n <=? 13)) || (n =? 32))%N.

Definition isdigit (a : ascii) : bool :=
  let n := N_of_ascii a in
  ((48 <=? n) && (n <=? 57))%N.

Definition notspace (a : ascii) : bool := negb (isspace a).

(** ** Results and errors

    Every failure of the constructor is an exception that leaves no object
    behind.  The constructors of [error] name the throw sites:
    - [InputTooShort]: [Request_line_error{"Invalid request: ..."}], line 175;
    - [MissingLineTerminator]: [Request_line_error{"Invalid line-ending"}],
      line 190;
    - [GrammarMismatch]: [Request_line_error{"Invalid request line: ..."}],
      line 203;
    - [UnknownMethod]: the failure of [method::code], line 206;
    - [InvalidVersionNumber]: [std::invalid_argument] and
      [std::out_of_range] leaving [std::stoul], lines 210 and 211. *)
Inductive error : Type :=
| InputTooShort
| MissingLineTerminator
| GrammarMismatch
| UnknownMethod
| InvalidVersionNumber.

Inductive result (A : Type) : Type :=
| Ok (a : A)
| Err (e : error).

Arguments Ok {A} a.
Arguments Err {A} e.

Definition bind {A B : Type} (m : result A) (f : A -> result B) : result B :=
  match m with
  | Ok a => f a
  | Err e => Err e
  end.

Notation "x <- m ;; f" := (bind m (fun x => f))
  (at level 61, m at next level, right associativity).

(** ** Regular expressions ([<regex>], ECMAScript grammar)

    The fragment the request-line pattern is written in. *)
Module Regex.

Inductive regex : Type :=
| Eps                              (* the empty pattern *)
| Chr (a : ascii)                  (* an ordinary character *)
| Cls (p : ascii -> bool)          (* a class escape: \s \S \d *)
| Cat (r1 r2 : regex)              (* r1 r2 *)
| Alt (r1 r2 : regex)              (* r1|r2 *)
| Star (r : regex)                 (* r*, greedy *)
| Grp (i : nat) (r : regex).       (* (r), the i-th marked sub-expression *)

(** r+ *)
Definition Plus (r : regex) : regex := Cat r (Star r).

(** A run of ordinary characters. *)
Fixpoint Lit (s : bytes) : regex :=
  match s with
  | [] => Eps
  | a :: s' => Cat (Chr a) (Lit s')
  end.

(** The sub-matches recorded so far, most recent first. *)
Definition captures := list (nat * bytes).

Fixpoint sub_match (i : nat) (c : captures) : option bytes :=
  match c with
  | [] => None
  | (j, s) :: c' => if Nat.eqb i j then Some s else sub_match i c'
  end.

Definition cont := bytes -> captures -> option captures.

(** Greedy iteration: try one more round of [step], which has to consume
    input, before handing over to the continuation. *)
Fixpoint iter (step : bytes -> captures -> cont -> option captures)
    (k : cont) (fuel : nat) (s : bytes) (c : captures) : option captures :=
  match fuel with
  | O => k s c
  | S fuel' =>
      match step s c (fun s1 c1 =>
                        if length s1 <? length s
                        then iter step k fuel' s1 c1 else None) with
      | Some x => Some x
      | None => k s c
      end
  end.

(** The backtracking matcher, in continuation-passing style: [run r s c k]
    matches a prefix of [s] against [r] and passes the rest to [k]; when
    [k] refuses, the next alternative is tried. *)
Fixpoint run (r : regex) (s : bytes) (c : captures) (k : cont)
    {struct r} : option captures :=
  match r with
  | Eps => k s c
  | Chr a =>
      match s with
      | x :: s' => if Ascii.eqb x a then k s' c else None
      | [] => None
      end
  | Cls p =>
      match s with
      | x :: s' => if p x then k s' c else None
      | [] => None
      end
  | Cat r1 r2 => run r1 s c (fun s1 c1 => run r2 s1 c1 k)
  | Alt r1 r2 =>
      match run r1 s c k with
      | Some x => Some x
      | None => run r2 s c k
      end
  | Star r1 => iter (run r1) k (length s) s c
  | Grp i r1 =>
      run r1 s c
        (fun s1 c1 => k s1 ((i, firstn (length s - length s1) s) :: c1))
  end.

(** [std::regex_match]: the whole sequence has to match. *)
Definition at_end : cont :=
  fun s c => match s with [] => Some c | _ :: _ => None end.

Definition regex_match (r : regex) (s : bytes) : option captures :=
  run r s [] at_end.

(** Declarative reading of a pattern: [matches r s c c'] when [s] is in the
    language of [r] and the match extends the sub-matches [c] to [c']. *)
Inductive matches : regex -> bytes -> captures -> captures -> Prop :=
| M_eps c : matches Eps [] c c
| M_chr a c : matches (Chr a) [a] c c
| M_cls p a c : p a = true -> matches (Cls p) [a] c c
| M_cat r1 r2 s1 s2 c c1 c2 :
    matches r1 s1 c c1 -> matches r2 s2 c1 c2 ->
    matches (Cat r1 r2) (s1 ++ s2) c c2
| M_alt_l r1 r2 s c c1 : matches r1 s c c1 -> matches (Alt r1 r2) s c c1
| M_alt_r r1 r2 s c c1 : matches r2 s c c1 -> matches (Alt r1 r2) s c c1
| M_star_nil r c : matches (Star r) [] c c
| M_star_cons r s1 s2 c c1 c2 :
    s1 <> [] -> matches r s1 c c1 -> matches (Star r) s2 c1 c2 ->
    matches (Star r) (s1 ++ s2) c c2
| M_grp i r s c c1 : matches r s c c1 -> matches (Grp i r) s c ((i, s) :: c1).

End Regex.

Import Regex.

(** ** [std::string_view] operations used by the constructor *)

Fixpoint bytes_eqb (s t : bytes) : bool :=
  match s, t with
  | [], [] => true
  | a :: s', b :: t' => Ascii.eqb a b && bytes_eqb s' t'
  | _, _ => false
  end.

Fixpoint starts_with (pat s : bytes) : bool :=
  match pat, s with
  | [], _ => true
  | a :: pat', b :: s' => Ascii.eqb a b && starts_with pat' s'
  | _ :: _, [] => false
  end.

(** [s.find(pat)]: the lowest position at which [pat] occurs in [s];
    [None] is [npos]. *)
Fixpoint find (pat s : bytes) : option nat :=
  if starts_with pat s then Some O
  else match s with
       | [] => None
       | _ :: s' => option_map S (find pat s')
       end.

(** [s.find(ch)] *)
Definition find_chr (ch : ascii) (s : bytes) : option nat := find [ch] s.

(** [s.substr(pos)] and [s.substr(0, n)] *)
Definition substr_from (pos : nat) (s : bytes) : bytes := skipn pos s.
Definition substr_to (n : nat) (s : bytes) : bytes := firstn n s.

(** ** [std::stoul] and integer conversions *)

Definition UINT_BITS : Z := 32%Z.

(** [static_cast<unsigned>(x)] of an [unsigned long] *)
Definition to_unsigned (x : Z) : Z := (x mod 2 ^ UINT_BITS)%Z.

Definition digit_val (a : ascii) : Z := (Z.of_N (N_of_ascii a) - 48)%Z.

Definition decimal_value (ds : bytes) : Z :=
  fold_left (fun acc a => (10 * acc + digit_val a)%Z) ds 0%Z.

Fixpoint skip_space (s : bytes) : bytes :=
  match s with
  | a :: s' => if isspace a then skip_space s' else s
  | [] => []
  end.

Fixpoint digit_run (s : bytes) : bytes :=
  match s with
  | a :: s' => if isdigit a then a :: digit_run s' else []
  | [] => []
  end.

(** [std::stoul(str)] in base 10, as [strtoul] converts: leading white
    space is skipped, a sign is accepted, the longest run of digits is
    converted and what follows it is ignored.  No digits:
    [std::invalid_argument]; a value that does not fit [unsigned long]:
    [std::out_of_range]; a minus sign negates in [unsigned long]. *)
Definition stoul (ulong_bits : Z) (str : bytes) : result Z :=
  let s := skip_space str in
  let '(neg, s) :=
    match s with
    | a :: s' =>
        if Ascii.eqb a "-"%char then (true, s')
        else if Ascii.eqb a "+"%char then (false, s')
        else (false, s)
    | [] => (false, s)
    end in
  match digit_run s with
  | [] => Err InvalidVersionNumber
  | ds =>
      let v := decimal_value ds in
      if 2 ^ ulong_bits <=? v then Err InvalidVersionNumber
      else Ok (if neg then (2 ^ ulong_bits - v) mod 2 ^ ulong_bits else v)
  end%Z.

(** Decimal output of an unsigned value ([operator<<] of a stream, or
    ["%u"]): no sign, no leading zeros, ["0"] for zero. *)
Definition digit_char_of (d : Z) : ascii := ascii_of_N (Z.to_N (48 + d)%Z).

Fixpoint dec_digits (fuel : nat) (n : Z) (acc : bytes) : bytes :=
  let acc' := digit_char_of (n mod 10)%Z :: acc in
  match fuel with
  | O => acc'
  | S fuel' => if (n <? 10)%Z then acc' else dec_digits fuel' (n / 10)%Z acc'
  end.

Definition dec (n : Z) : bytes := dec_digits (Z.to_nat (Z.log2 n)) n [].

(** ** The field types *)

(** Modelled from the spec: [methods.hpp] is not under src/.  [Method] is
    the closed enumeration of the eight request methods (section 3); the
    pattern of the constructor lists the same eight tokens. *)
Inductive Method : Type :=
| GET | POST | PUT | DELETE | OPTIONS | HEAD | TRACE | CONNECT.

Module method.

(** Modelled from the spec: [methods.hpp] is not under src/.  [method::str]
    is the total encoding of a method as its canonical uppercase token
    (section 4.1, [encode]). *)
Definition str (m : Method) : bytes :=
  match m with
  | GET => bs "GET"
  | POST => bs "POST"
  | PUT => bs "PUT"
  | DELETE => bs "DELETE"
  | OPTIONS => bs "OPTIONS"
  | HEAD => bs "HEAD"
  | TRACE => bs "TRACE"
  | CONNECT => bs "CONNECT"
  end.

Definition all : list Method :=
  [GET; POST; PUT; DELETE; OPTIONS; HEAD; TRACE; CONNECT].

(** Modelled from the spec: [methods.hpp] is not under src/.  [method::code]
    decodes a token that is byte for byte one of the eight tokens and fails
    with [UnknownMethod] on any other (section 4.1, [decode]). *)
Definition code (token : bytes) : result Method :=
  match List.find (fun m => bytes_eqb token (str m)) all with
  | Some m => Ok m
  | None => Err UnknownMethod
  end.

End method.

(** Modelled from the spec: [version.hpp] is not under src/.  A [Version] is
    the pair of its two [unsigned] components (section 3), built by
    [Version{maj, min}]. *)
Record Version : Type := mkVersion { major : Z; minor : Z }.


(** Modelled from the spec: the [URI] class of [common.hpp] is not under
    src/.  It holds the request target verbatim and streams it back
    unchanged (section 3, Target). *)
Record URI : Type := mkURI { uri_str : bytes }.


(** ** [class Request_line] *)

Record Request_line : Type := mkRequest_line {
  method_ : Method;
  uri_ : URI;
  version_ : Version
}.

(** The default member initializers: [{GET}], [{"/"}], [{1U, 1U}]. *)
Definition Request_line_default : Request_line :=
  {| method_ := GET; uri_ := mkURI (bs "/"); version_ := mkVersion 1%Z 1%Z |}.

(** The pattern of the constructor:
    [\s*(GET|POST|PUT|DELETE|OPTIONS|HEAD|TRACE|CONNECT) (\S+) HTTP/(\d+)\.(\d+)] *)
Definition method_alternatives : regex :=
  Alt (Lit (bs "GET")) (Alt (Lit (bs "POST")) (Alt (Lit (bs "PUT"))
  (Alt (Lit (bs "DELETE")) (Alt (Lit (bs "OPTIONS")) (Alt (Lit (bs "HEAD"))
  (Alt (Lit (bs "TRACE")) (Lit (bs "CONNECT")))))))).

Definition request_line_pattern : regex :=
  Cat (Star (Cls isspace))
 (Cat (Grp 1 method_alternatives)
 (Cat (Chr SP)
 (Cat (Grp 2 (Plus (Cls notspace)))
 (Cat (Chr SP)
 (Cat (Lit (bs "HTTP/"))
 (Cat (Grp 3 (Plus (Cls isdigit)))
 (Cat (Chr "."%char)
      (Grp 4 (Plus (Cls isdigit)))))))))).

(** [m[i].str()]: a sub-expression that did not take part gives the empty
    string. *)
Definition sub_str (m : captures) (i : nat) : bytes :=
  match sub_match i m with
  | Some s => s
  | None => []
  end.

(** Lines 184-191: where the request line ends.  The result is [index]
    and [is_canonical_line_ending]. *)
Definition line_ending (request : bytes) : result (nat * bool) :=
  match find CRLF request with
  | Some index => Ok (index, true)
  | None =>
      match find_chr LF request with
      | Some index => Ok (index, false)
      | None => Err MissingLineTerminator
      end
  end.

(** What the constructor leaves when it reaches its closing brace: the
    object under construction and its parameter [request], which is a
    [string_view] taken by value. *)
Record ctor_exit : Type := mkExit {
  self : Request_line;
  request_param : bytes
}.

(** [Request_line::Request_line(std::experimental::string_view request)] *)
Definition Request_line_ctor (ulong_bits : Z) (request : bytes)
    : result ctor_exit :=
  if (match request with [] => true | _ => false end)
     || (length request <? 15)
  then Err InputTooShort
  else
    e <- line_ending request ;;
    let '(index, is_canonical_line_ending) := e in
    let request_line := substr_to index request in
    match regex_match request_line_pattern request_line with
    | None => Err GrammarMismatch
    | Some m =>
        meth <- method.code (sub_str m 1) ;;
        let uri := mkURI (sub_str m 2) in
        maj <- stoul ulong_bits (sub_str m 3) ;;
        min <- stoul ulong_bits (sub_str m 4) ;;
        let version := mkVersion (to_unsigned maj) (to_unsigned min) in
        let request :=
          if is_canonical_line_ending : bool
          then substr_from (index + 2) request
          else substr_from (index + 1) request in
        Ok {| self := {| method_ := meth; uri_ := uri; version_ := version |};
              request_param := request |}
    end.

(** A construction [Request_line{buf}] as its caller sees it: [buf] is
    copied into the parameter, the caller gets the object (or the
    exception) and keeps [buf] as it was. *)
Definition construct (ulong_bits : Z) (buf : bytes)
    : result (Request_line * bytes) :=
  x <- Request_line_ctor ulong_bits buf ;;
  Ok (self x, buf).

(** Member functions take [*this] and give their result back together
    with the object as they leave it. *)
Definition method (this : Request_line) : Method * Request_line :=
  (method_ this, this).

Definition set_method (m : Method) (this : Request_line)
    : unit * Request_line :=
  (tt, {| method_ := m; uri_ := uri_ this; version_ := version_ this |}).

Definition uri (this : Request_line) : URI * Request_line :=
  (uri_ this, this).

Definition set_uri (u : URI) (this : Request_line) : unit * Request_line :=
  (tt, {| method_ := method_ this; uri_ := u; version_ := version_ this |}).

Definition version (this : Request_line) : Version * Request_line :=
  (version_ this, this).

Definition set_version (v : Version) (this : Request_line)
    : unit * Request_line :=
  (tt, {| method_ := method_ this; uri_ := uri_ this; version_ := v |}).


(** ** The grammar in the words of the specification *)

Definition method_tokens : list bytes :=
  [bs "GET"; bs "POST"; bs "PUT"; bs "DELETE"; bs "OPTIONS"; bs "HEAD";
   bs "TRACE"; bs "CONNECT"].

(** The positions of a request line: a white-space run, a method token,
    one space, a target, one space, ["HTTP/"], digits, ["."], digits, and
    nothing after them.  Tokens are non-empty runs without white space. *)
Definition positional_shape (line ws m target maj min : bytes) : Prop :=
  line = ws ++ m ++ [SP] ++ target ++ [SP] ++ bs "HTTP/" ++ maj
            ++ bs "." ++ min
  /\ forallb isspace ws = true
  /\ m <> [] /\ forallb notspace m = true
  /\ target <> [] /\ forallb notspace target = true
  /\ maj <> [] /\ forallb isdigit maj = true
  /\ min <> [] /\ forallb isdigit min = true.

Definition request_line_shape (line : bytes) : Prop :=
  exists ws m target maj min,
    positional_shape line ws m target maj min /\ In m method_tokens.

(** The rendering in the words of the specification (section 4.4):
    ["<METHOD> <target> HTTP/<major>.<minor>\r\n"], to be compared with
    what [to_string] writes. *)
Definition wire_line (this : Request_line) : bytes :=
  method.str (method_ this) ++ [SP] ++ uri_str (uri_ this) ++ [SP]
  ++ bs "HTTP/" ++ dec (major (version_ this)) ++ bs "."
  ++ dec (minor (version_ this)) ++ CRLF.

(** [pat] occurs in [s] at position [i]; [i] is its first occurrence. *)
Definition occurs_at (pat s : bytes) (i : nat) : Prop :=
  exists pre post, s = pre ++ pat ++ post /\ length pre = i.

Definition first_at (pat s : bytes) (i : nat) : Prop :=
  occurs_at pat s i /\ forall j, j < i -> ~ occurs_at pat s j.

Definition occurs (pat s : bytes) : Prop := exists i, occurs_at pat s i.

(** A decimal numeral as [dec] writes it: digits, no leading zero unless
    it is ["0"] itself. *)
Definition canonical_numeral (ds : bytes) : Prop :=
  ds <> [] /\ forallb isdigit ds = true
  /\ (ds = bs "0" \/ hd "0"%char ds <> "0"%char).

(** Any character but a line feed. *)
Definition notLF (a : ascii) : bool := negb (Ascii.eqb a LF).

(** The sub-matches of a request line, in the order the matcher records
    them. *)
Definition line_captures (m target maj min : bytes) (c : captures)
    : captures :=
  (4, min) :: (3, maj) :: (2, target) :: (1, m) :: c.

(** ** Further notions used in the properties *)

(** The characters of the line ending that [index] points at. *)
Definition terminator (is_canonical_line_ending : bool) : bytes :=
  if is_canonical_line_ending then CRLF else [LF].

(** White space that cannot take part in a line ending: space, tab,
    vertical tab and form feed. *)
Definition isblank (a : ascii) : bool :=
  isspace a && negb (Ascii.eqb a CR) && negb (Ascii.eqb a LF).

(** The values of the fields that a parse can leave in an object: a target
    that is a non-empty run without white space, and version numbers in
    the range of [unsigned]. *)
Definition well_formed (this : Request_line) : Prop :=
  uri_str (uri_ this) <> []
  /\ forallb notspace (uri_str (uri_ this)) = true
  /\ (0 <= major (version_ this) < 2 ^ UINT_BITS)%Z
  /\ (0 <= minor (version_ this) < 2 ^ UINT_BITS)%Z.

(** * Properties *)

(** ** The matcher against the declarative reading *)

Section MatcherFacts.

Lemma iter_sound (r : regex) (k : cont) :
  (forall s c k' x, run r s c k' = Some x ->
     exists s1 s2 c1, s = s1 ++ s2 /\ matches r s1 c c1 /\ k' s2 c1 = Some x) ->
  forall fuel s c x, iter (run r) k fuel s c = Some x ->
    exists s1 s2 c1,
      s = s1 ++ s2 /\ matches (Star r) s1 c c1 /\ k s2 c1 = Some x.
Proof.
  intros IHr fuel.
  induction fuel as [|fuel IH]; intros s c x H; simpl in H.
  - exists [], s, c. repeat split; auto. constructor.
  - destruct (run r s c _) as [y|] eqn:E.
    + inversion H; subst y; clear H.
      apply IHr in E. destruct E as (s1 & s2 & c1 & -> & Hm & Hk).
      destruct (length s2 <? length (s1 ++ s2)) eqn:Hlt; [|discriminate].
      apply Nat.ltb_lt in Hlt.
      apply IH in Hk. destruct Hk as (s3 & s4 & c2 & -> & Hm' & Hk).
      exists (s1 ++ s3), s4, c2. rewrite <- app_assoc. repeat split; auto.
      econstructor; eauto.
      intros ->. simpl in Hlt. lia.
    + exists [], s, c. repeat split; auto. constructor.
Qed.

Lemma run_sound (r : regex) :
  forall s c k x, run r s c k = Some x ->
    exists s1 s2 c1, s = s1 ++ s2 /\ matches r s1 c c1 /\ k s2 c1 = Some x.
Proof.
  induction r as [|a|p|r1 IH1 r2 IH2|r1 IH1 r2 IH2|r IH|i r IH];
    intros s c k x H; simpl in H.
  - exists [], s, c. repeat split; auto. constructor.
  - destruct s as [|b s]; [discriminate|].
    destruct (Ascii.eqb b a) eqn:E; [|discriminate].
    apply Ascii.eqb_eq in E. subst b.
    exists [a], s, c. repeat split; auto. constructor.
  - destruct s as [|b s]; [discriminate|].
    destruct (p b) eqn:E; [|discriminate].
    exists [b], s, c. repeat split; auto. constructor; auto.
  - apply IH1 in H. destruct H as (s1 & s2 & c1 & -> & Hm1 & H).
    apply IH2 in H. destruct H as (s3 & s4 & c2 & -> & Hm2 & H).
    exists (s1 ++ s3), s4, c2. rewrite <- app_assoc. repeat split; auto.
    econstructor; eauto.
  - destruct (run r1 s c k) as [y|] eqn:E.
    + inversion H; subst y; clear H.
      apply IH1 in E. destruct E as (s1 & s2 & c1 & -> & Hm & Hk).
      exists s1, s2, c1. repeat split; auto. now apply M_alt_l.
    + apply IH2 in H. destruct H as (s1 & s2 & c1 & -> & Hm & Hk).
      exists s1, s2, c1. repeat split; auto. now apply M_alt_r.
  - eapply iter_sound; eauto.
  - apply IH in H. destruct H as (s1 & s2 & c1 & -> & Hm & Hk).
    exists s1, s2, ((i, s1) :: c1). repeat split; auto.
    + now constructor.
    + rewrite <- Hk. do 3 f_equal.
      rewrite length_app, Nat.add_sub.
      now rewrite firstn_app, Nat.sub_diag, firstn_all, app_nil_r.
Qed.

Lemma run_complete r s1 c c1 :
  matches r s1 c c1 ->
  forall s2 k x, k s2 c1 = Some x ->
    (exists y, run r (s1 ++ s2) c k = Some y)
    /\ (forall r0 fuel, r = Star r0 -> length (s1 ++ s2) <= fuel ->
          exists y, iter (run r0) k fuel (s1 ++ s2) c = Some y).
Proof.
  induction 1 as
    [c|a c|p a c Hp|r1 r2 s1 s2 c c1 c2 _ IH1 _ IH2
    |r1 r2 s c c1 _ IH|r1 r2 s c c1 _ IH|r c
    |r s1 s2 c c1 c2 Hne _ IH1 _ IH2|i r s c c1 _ IH];
    intros s3 k x Hk; (split; [|try discriminate]); simpl.
  - eauto.
  - rewrite Ascii.eqb_refl. eauto.
  - rewrite Hp. eauto.
  - rewrite <- app_assoc.
    destruct (IH2 _ _ _ Hk) as [[y Hy] _].
    eapply (IH1 (s2 ++ s3)). exact Hy.
  - destruct (IH _ _ _ Hk) as [[y Hy] _]. rewrite Hy. eauto.
  - destruct (IH _ _ _ Hk) as [[y Hy] _].
    destruct (run r1 (s ++ s3) c k); eauto.
  - destruct (length s3) as [|n]; simpl; [eauto|].
    destruct (run r s3 c _); eauto.
  - intros r0 fuel E _. inversion E; subst r0; clear E.
    destruct fuel as [|fuel]; simpl; [eauto|].
    destruct (run r s3 c _); eauto.
  - destruct (IH2 _ _ _ Hk) as [_ Hit].
    assert (Hfuel : exists y,
               iter (run r) k (length ((s1 ++ s2) ++ s3))
                    ((s1 ++ s2) ++ s3) c = Some y).
    { destruct (length ((s1 ++ s2) ++ s3)) as [|n] eqn:Hlen.
      - destruct s1; [congruence | discriminate].
      - simpl. rewrite <- app_assoc.
        destruct (Hit r n eq_refl) as [y Hy].
        { rewrite <- app_assoc, length_app in Hlen.
          destruct s1; [congruence|]. simpl in Hlen. lia. }
        edestruct (IH1 (s2 ++ s3)) as [[z Hz] _].
        2:{ rewrite Hz. eauto. }
        simpl. replace (length (s2 ++ s3) <? length (s1 ++ s2 ++ s3)) with true.
        + exact Hy.
        + symmetry. apply Nat.ltb_lt. rewrite (length_app s1).
          destruct s1; [congruence|]. simpl. lia. }
    exact Hfuel.
  - intros r0 fuel E Hlen. inversion E; subst r0; clear E.
    destruct (IH2 _ _ _ Hk) as [_ Hit].
    destruct fuel as [|n].
    { rewrite <- app_assoc, length_app in Hlen.
      destruct s1; [congruence|]. simpl in Hlen. lia. }
    simpl. rewrite <- app_assoc.
    destruct (Hit r n eq_refl) as [y Hy].
    { rewrite <- app_assoc, length_app in Hlen.
      destruct s1; [congruence|]. simpl in Hlen. lia. }
    edestruct (IH1 (s2 ++ s3)) as [[z Hz] _].
    2:{ rewrite Hz. eauto. }
    simpl. replace (length (s2 ++ s3) <? length (s1 ++ s2 ++ s3)) with true.
    + exact Hy.
    + symmetry. apply Nat.ltb_lt. rewrite (length_app s1).
      destruct s1; [congruence|]. simpl. lia.
  - destruct (IH s3 (fun s1 c1 =>
                       k s1 ((i, firstn (length (s ++ s3) - length s1)
                                        (s ++ s3)) :: c1)) x) as [[y Hy] _].
    + rewrite length_app, Nat.add_sub.
      now rewrite firstn_app, Nat.sub_diag, firstn_all, app_nil_r.
    + eauto.
Qed.

(** [regex_match] accepts exactly the language of the pattern, and the
    sub-matches it reports are those of a match. *)
Lemma regex_match_sound r s m :
  regex_match r s = Some m -> matches r s [] m.
Proof.
  unfold regex_match. intros H.
  apply run_sound in H. destruct H as (s1 & s2 & c1 & -> & Hm & Hk).
  destruct s2; simpl in Hk; [|discriminate].
  inversion Hk; subst. now rewrite app_nil_r.
Qed.

Lemma regex_match_complete r s m :
  matches r s [] m -> exists m', regex_match r s = Some m'.
Proof.
  intros H. unfold regex_match.
  destruct (run_complete H [] at_end (x:=m) eq_refl) as [Hy _].
  now rewrite app_nil_r in Hy.
Qed.

End MatcherFacts.

(** ** The language of the building blocks of the pattern *)

Section PatternBlocks.

Lemma matches_Lit t c : matches (Lit t) t c c.
Proof.
  induction t as [|a t IH]; simpl; [constructor|].
  change (a :: t) with ([a] ++ t). econstructor; [constructor | exact IH].
Qed.

Lemma matches_Lit_inv t : forall s c c',
  matches (Lit t) s c c' -> s = t /\ c' = c.
Proof.
  induction t as [|a t IH]; simpl; intros s c c' H.
  - inversion H; auto.
  - inversion H as [| | |r1 r2 s1 s2 c0 c1 c2 H1 H2| | | | |]; subst.
    inversion H1; subst. apply IH in H2. destruct H2 as [-> ->]. auto.
Qed.

Lemma matches_Star_Cls p s c :
  forallb p s = true -> matches (Star (Cls p)) s c c.
Proof.
  induction s as [|a s IH]; simpl; intros H; [constructor|].
  apply andb_true_iff in H. destruct H as [Ha Hs].
  change (a :: s) with ([a] ++ s).
  econstructor; [discriminate | constructor; exact Ha | auto].
Qed.

Lemma matches_Star_Cls_inv p s c c' :
  matches (Star (Cls p)) s c c' -> forallb p s = true /\ c' = c.
Proof.
  remember (Star (Cls p)) as r eqn:Er. intros H.
  induction H as
    [| | | | | |r c|r s1 s2 c c1 c2 Hne H1 _ H2 IH|]; try discriminate.
  - auto.
  - inversion Er; subst r. inversion H1; subst.
    destruct (IH eq_refl) as [Hs ->]. simpl.
    split; auto. now apply andb_true_iff.
Qed.

Lemma matches_Plus_Cls p s c :
  s <> [] -> forallb p s = true -> matches (Plus (Cls p)) s c c.
Proof.
  destruct s as [|a s]; [congruence|]. simpl. intros _ H.
  apply andb_true_iff in H. destruct H as [Ha Hs].
  change (a :: s) with ([a] ++ s). unfold Plus.
  econstructor; [constructor; exact Ha | now apply matches_Star_Cls].
Qed.

Lemma matches_Plus_Cls_inv p s c c' :
  matches (Plus (Cls p)) s c c' ->
  s <> [] /\ forallb p s = true /\ c' = c.
Proof.
  unfold Plus. intros H.
  inversion H as [| | |r1 r2 s1 s2 c0 c1 c2 H1 H2| | | | |]; subst.
  inversion H1; subst. apply matches_Star_Cls_inv in H2.
  destruct H2 as [Hs ->]. simpl.
  repeat split; [discriminate | now apply andb_true_iff].
Qed.

Lemma matches_Alt_inv r1 r2 s c c' :
  matches (Alt r1 r2) s c c' -> matches r1 s c c' \/ matches r2 s c c'.
Proof. intros H. inversion H; subst; auto. Qed.

Lemma matches_method_alternatives tok c :
  In tok method_tokens -> matches method_alternatives tok c c.
Proof.
  unfold method_tokens, method_alternatives. intros H.
  repeat (destruct H as [<-|H];
          [solve [repeat (first [apply matches_Lit
                                | apply M_alt_l; apply matches_Lit
                                | apply M_alt_r])] |]).
  destruct H.
Qed.

Lemma matches_method_alternatives_inv tok c c' :
  matches method_alternatives tok c c' ->
  In tok method_tokens /\ c' = c.
Proof.
  unfold method_alternatives, method_tokens. intros H.
  repeat (apply matches_Alt_inv in H; destruct H as [H|H];
          [apply matches_Lit_inv in H; destruct H as [-> ->];
           split; [simpl; auto 12 | reflexivity] |]).
  apply matches_Lit_inv in H; destruct H as [-> ->].
  split; [simpl; auto 12 | reflexivity].
Qed.

End PatternBlocks.

(** ** The language of [request_line_pattern] *)

Section PatternLanguage.

Lemma matches_Cat_inv r1 r2 s c c' :
  matches (Cat r1 r2) s c c' ->
  exists s1 s2 c1,
    s = s1 ++ s2 /\ matches r1 s1 c c1 /\ matches r2 s2 c1 c'.
Proof. intros H. inversion H; subst. eauto 6. Qed.

Lemma matches_Grp_inv i r s c c' :
  matches (Grp i r) s c c' -> exists c1, matches r s c c1 /\ c' = (i, s) :: c1.
Proof. intros H. inversion H; subst. eauto. Qed.

Lemma matches_Chr_inv a s c c' :
  matches (Chr a) s c c' -> s = [a] /\ c' = c.
Proof. intros H. inversion H; subst. auto. Qed.

Lemma method_token_nonspace tok :
  In tok method_tokens -> tok <> [] /\ forallb notspace tok = true.
Proof.
  unfold method_tokens. simpl. intros H.
  repeat (destruct H as [<-|H]; [split; [discriminate | reflexivity] |]).
  destruct H.
Qed.

Lemma pattern_matches_intro s ws m t maj min c :
  positional_shape s ws m t maj min -> In m method_tokens ->
  matches request_line_pattern s c (line_captures m t maj min c).
Proof.
  intros (-> & Hws & _ & _ & Ht & Hts & Hmaj & Hmajd & Hmin & Hmind) Hm.
  unfold request_line_pattern, line_captures.
  repeat (eapply M_cat).
  - now apply matches_Star_Cls.
  - apply M_grp. now apply matches_method_alternatives.
  - apply M_chr.
  - apply M_grp. now apply matches_Plus_Cls.
  - apply M_chr.
  - apply matches_Lit.
  - apply M_grp. now apply matches_Plus_Cls.
  - apply (M_chr "."%char).
  - apply M_grp. now apply matches_Plus_Cls.
Qed.

Lemma pattern_matches_inv s c c' :
  matches request_line_pattern s c c' ->
  exists ws m t maj min,
    positional_shape s ws m t maj min /\ In m method_tokens
    /\ c' = line_captures m t maj min c.
Proof.
  unfold request_line_pattern. intros H.
  apply matches_Cat_inv in H. destruct H as (ws & s1 & c1 & -> & Hws & H).
  apply matches_Star_Cls_inv in Hws. destruct Hws as [Hws ->].
  apply matches_Cat_inv in H. destruct H as (m & s2 & c2 & -> & Hm & H).
  apply matches_Grp_inv in Hm. destruct Hm as (c3 & Hm & ->).
  apply matches_method_alternatives_inv in Hm. destruct Hm as [Hm ->].
  apply matches_Cat_inv in H. destruct H as (sp1 & s3 & c4 & -> & Hsp & H).
  apply matches_Chr_inv in Hsp. destruct Hsp as [-> ->].
  apply matches_Cat_inv in H. destruct H as (t & s4 & c5 & -> & Ht & H).
  apply matches_Grp_inv in Ht. destruct Ht as (c6 & Ht & ->).
  apply matches_Plus_Cls_inv in Ht. destruct Ht as (Htne & Ht & ->).
  apply matches_Cat_inv in H. destruct H as (sp2 & s5 & c7 & -> & Hsp & H).
  apply matches_Chr_inv in Hsp. destruct Hsp as [-> ->].
  apply matches_Cat_inv in H. destruct H as (lit & s6 & c8 & -> & Hlit & H).
  apply matches_Lit_inv in Hlit. destruct Hlit as [-> ->].
  apply matches_Cat_inv in H. destruct H as (maj & s7 & c9 & -> & Hmaj & H).
  apply matches_Grp_inv in Hmaj. destruct Hmaj as (c10 & Hmaj & ->).
  apply matches_Plus_Cls_inv in Hmaj. destruct Hmaj as (Hmajne & Hmaj & ->).
  apply matches_Cat_inv in H. destruct H as (dot & min & c11 & -> & Hdot & H).
  apply matches_Chr_inv in Hdot. destruct Hdot as [-> ->].
  apply matches_Grp_inv in H. destruct H as (c12 & Hmin & ->).
  apply matches_Plus_Cls_inv in Hmin. destruct Hmin as (Hminne & Hmin & ->).
  exists ws, m, t, maj, min.
  destruct (method_token_nonspace Hm) as [Hmne Hmns].
  unfold positional_shape, line_captures. repeat split; auto.
Qed.

(** A run of characters of a class that ends at a character outside the
    class is determined by the sequence it starts. *)
Lemma class_run_unique (p : ascii -> bool) :
  forall s1 s2 a b r1 r2,
    forallb p s1 = true -> forallb p s2 = true ->
    p a = false -> p b = false ->
    s1 ++ a :: r1 = s2 ++ b :: r2 ->
    s1 = s2 /\ a :: r1 = b :: r2.
Proof.
  induction s1 as [|x s1 IH]; intros [|y s2] a b r1 r2 H1 H2 Ha Hb E;
    simpl in *.
  - auto.
  - inversion E; subst. apply andb_true_iff in H2. destruct H2; congruence.
  - inversion E; subst. apply andb_true_iff in H1. destruct H1; congruence.
  - inversion E; subst.
    apply andb_true_iff in H1. apply andb_true_iff in H2.
    destruct H1 as [_ H1], H2 as [_ H2].
    destruct (IH _ _ _ _ _ H1 H2 Ha Hb H3) as [-> ->]. auto.
Qed.

Lemma notspace_head m :
  m <> [] -> forallb notspace m = true ->
  exists a m', m = a :: m' /\ isspace a = false.
Proof.
  destruct m as [|a m']; [congruence|]. simpl. intros _ H.
  apply andb_true_iff in H. destruct H as [Ha _].
  exists a, m'. split; auto.
  unfold notspace in Ha. now apply negb_true_iff in Ha.
Qed.

Lemma positional_shape_unique s ws m t maj min ws' m' t' maj' min' :
  positional_shape s ws m t maj min ->
  positional_shape s ws' m' t' maj' min' ->
  ws = ws' /\ m = m' /\ t = t' /\ maj = maj' /\ min = min'.
Proof.
  intros (-> & Hws & Hm & Hms & _ & Hts & _ & Hmajd & _ & _)
         (E & Hws' & Hm' & Hms' & _ & Hts' & _ & Hmajd' & _ & _).
  destruct (notspace_head Hm Hms) as (a & m0 & -> & Ha).
  destruct (notspace_head Hm' Hms') as (a' & m0' & -> & Ha').
  simpl in E.
  apply (@class_run_unique isspace) in E; auto. destruct E as [-> E].
  rewrite (app_comm_cons m0 _ a), (app_comm_cons m0' _ a') in E.
  apply (@class_run_unique notspace) in E; auto. destruct E as [-> E].
  inversion E as [E1]; clear E.
  apply (@class_run_unique notspace) in E1; auto. destruct E1 as [-> E].
  inversion E as [E1]; clear E.
  apply (@class_run_unique isdigit) in E1; auto. destruct E1 as [-> E].
  inversion E; subst. auto.
Qed.

(** What [regex_match] answers on a line with the positions of a request
    line. *)
Lemma regex_match_shape line ws m t maj min :
  positional_shape line ws m t maj min -> In m method_tokens ->
  regex_match request_line_pattern line = Some (line_captures m t maj min []).
Proof.
  intros Hs Hm.
  destruct (regex_match_complete (pattern_matches_intro [] Hs Hm)) as [c Hc].
  rewrite Hc. f_equal.
  apply regex_match_sound, pattern_matches_inv in Hc.
  destruct Hc as (ws' & m' & t' & maj' & min' & Hs' & _ & ->).
  destruct (positional_shape_unique Hs' Hs) as (_ & -> & -> & -> & ->).
  reflexivity.
Qed.

Lemma regex_match_unknown_method line ws m t maj min :
  positional_shape line ws m t maj min -> ~ In m method_tokens ->
  regex_match request_line_pattern line = None.
Proof.
  intros Hs Hm.
  destruct (regex_match request_line_pattern line) as [c|] eqn:Hc; auto.
  apply regex_match_sound, pattern_matches_inv in Hc.
  destruct Hc as (ws' & m' & t' & maj' & min' & Hs' & Hm' & _).
  destruct (positional_shape_unique Hs' Hs) as (_ & -> & _).
  contradiction.
Qed.

Lemma regex_match_iff_shape line :
  (exists m, regex_match request_line_pattern line = Some m)
  <-> request_line_shape line.
Proof.
  split.
  - intros [c Hc]. apply regex_match_sound, pattern_matches_inv in Hc.
    destruct Hc as (ws & m & t & maj & min & Hs & Hm & _).
    exists ws, m, t, maj, min. auto.
  - intros (ws & m & t & maj & min & Hs & Hm).
    rewrite (regex_match_shape Hs Hm). eauto.
Qed.

End PatternLanguage.

(** ** [find] gives the first occurrence *)

Section FindFacts.

Lemma starts_with_true pat : forall s,
  starts_with pat s = true <-> exists post, s = pat ++ post.
Proof.
  induction pat as [|a pat IH]; intros s; simpl.
  - split; eauto.
  - destruct s as [|b s].
    + split; [discriminate | intros [post H]; discriminate].
    + rewrite andb_true_iff, Ascii.eqb_eq, IH. split.
      * intros [-> [post ->]]. eauto.
      * intros [post H]. inversion H; subst. eauto.
Qed.

Lemma occurs_at_0 pat s :
  occurs_at pat s 0 <-> starts_with pat s = true.
Proof.
  rewrite starts_with_true. unfold occurs_at. split.
  - intros (pre & post & -> & Hlen).
    destruct pre; [|discriminate]. simpl. eauto.
  - intros [post ->]. exists [], post. auto.
Qed.

Lemma occurs_at_S pat a s i :
  occurs_at pat (a :: s) (S i) <-> occurs_at pat s i.
Proof.
  unfold occurs_at. split.
  - intros (pre & post & E & Hlen).
    destruct pre as [|b pre]; [discriminate|].
    inversion E; subst. exists pre, post. simpl in Hlen. split; auto; lia.
  - intros (pre & post & -> & Hlen).
    exists (a :: pre), post. simpl. auto.
Qed.

Lemma occurs_at_nil pat i : occurs_at pat [] (S i) -> False.
Proof.
  intros (pre & post & E & Hlen). destruct pre; discriminate.
Qed.

Lemma find_Some pat : forall s i,
  find pat s = Some i -> first_at pat s i.
Proof.
  induction s as [|a s IH]; intros i; simpl.
  - destruct (starts_with pat []) eqn:E; [|discriminate].
    intros H; inversion H; subst. split.
    + now apply occurs_at_0.
    + intros j Hj; lia.
  - destruct (starts_with pat (a :: s)) eqn:E.
    + intros H; inversion H; subst. split.
      * now apply occurs_at_0.
      * intros j Hj; lia.
    + destruct (find pat s) as [k|]; simpl; [|discriminate].
      intros H; inversion H; subst.
      destruct (IH k eq_refl) as [Hk Hmin]. split.
      * now apply occurs_at_S.
      * intros [|j] Hj.
        -- rewrite occurs_at_0. congruence.
        -- rewrite occurs_at_S. apply Hmin. lia.
Qed.

Lemma find_None pat : forall s,
  find pat s = None -> forall i, ~ occurs_at pat s i.
Proof.
  induction s as [|a s IH]; simpl.
  - destruct (starts_with pat []) eqn:E; [discriminate|].
    intros _ [|i]; [rewrite occurs_at_0; congruence|].
    intros H. exact (occurs_at_nil H).
  - destruct (starts_with pat (a :: s)) eqn:E; [discriminate|].
    destruct (find pat s) as [k|]; simpl; [discriminate|].
    intros _ [|i].
    + rewrite occurs_at_0. congruence.
    + rewrite occurs_at_S. now apply IH.
Qed.

Lemma first_at_find pat s i : first_at pat s i -> find pat s = Some i.
Proof.
  intros [Hocc Hmin].
  destruct (find pat s) as [k|] eqn:E.
  - destruct (find_Some _ _ E) as [Hk Hkmin].
    f_equal. destruct (Nat.lt_trichotomy k i) as [Hlt|[->|Hgt]]; auto.
    + exfalso. exact (Hmin _ Hlt Hk).
    + exfalso. exact (Hkmin _ Hgt Hocc).
  - exfalso. eapply find_None; eauto.
Qed.

Lemma occurs_at_split pat s i :
  occurs_at pat s i ->
  s = firstn i s ++ pat ++ skipn (i + length pat) s /\ i + length pat <= length s.
Proof.
  intros (pre & post & -> & <-). split.
  - rewrite firstn_app, Nat.sub_diag, firstn_all. simpl. rewrite app_nil_r.
    rewrite skipn_app.
    rewrite (skipn_all2 pre) by lia. simpl.
    replace (length pre + length pat - length pre) with (length pat) by lia.
    rewrite skipn_app, Nat.sub_diag, skipn_all. reflexivity.
  - rewrite !length_app. lia.
Qed.

End FindFacts.

(** ** Decimal numerals: [std::stoul] and the decimal output *)

Section Numerals.

Local Open Scope Z_scope.

Lemma isdigit_range a :
  isdigit a = true <-> 48 <= Z.of_N (N_of_ascii a) <= 57.
Proof.
  unfold isdigit. rewrite andb_true_iff, !N.leb_le. lia.
Qed.



Lemma N_of_digit_char d :
  0 <= d <= 9 -> Z.of_N (N_of_ascii (digit_char_of d)) = 48 + d.
Proof.
  intros H. unfold digit_char_of.
  rewrite N_ascii_embedding by lia. lia.
Qed.

Lemma isdigit_digit_char d : 0 <= d <= 9 -> isdigit (digit_char_of d) = true.
Proof.
  intros H. apply isdigit_range. rewrite N_of_digit_char; lia.
Qed.

Lemma digit_val_digit_char d : 0 <= d <= 9 -> digit_val (digit_char_of d) = d.
Proof.
  intros H. unfold digit_val. rewrite N_of_digit_char; lia.
Qed.

Lemma isdigit_notspace a : isdigit a = true -> isspace a = false.
Proof.
  rewrite isdigit_range. unfold isspace. intros H.
  apply orb_false_iff. split.
  - apply andb_false_iff. right. apply N.leb_gt. lia.
  - apply N.eqb_neq. lia.
Qed.

Lemma isdigit_not_char a b :
  isdigit a = true -> isdigit b = false -> Ascii.eqb a b = false.
Proof.
  intros Ha Hb. apply Ascii.eqb_neq. congruence.
Qed.

Lemma decimal_value_snoc ds a :
  decimal_value (ds ++ [a]) = 10 * decimal_value ds + digit_val a.
Proof. unfold decimal_value. now rewrite fold_left_app. Qed.




Lemma digit_run_all ds : forallb isdigit ds = true -> digit_run ds = ds.
Proof.
  induction ds as [|a ds IH]; simpl; auto.
  intros H. apply andb_true_iff in H. destruct H as [-> H].
  now rewrite IH.
Qed.

(** On a digit run [std::stoul] converts the whole run, and throws exactly
    when the value does not fit [unsigned long]. *)
Lemma stoul_digits ulong_bits ds :
  ds <> [] -> forallb isdigit ds = true ->
  stoul ulong_bits ds =
    if 2 ^ ulong_bits <=? decimal_value ds
    then Err InvalidVersionNumber else Ok (decimal_value ds).
Proof.
  intros Hne Hd. unfold stoul.
  destruct ds as [|a ds]; [congruence|].
  assert (Ha : isdigit a = true).
  { simpl in Hd. now apply andb_true_iff in Hd. }
  simpl skip_space. rewrite (@isdigit_notspace a Ha).
  rewrite (@isdigit_not_char a "-" Ha eq_refl).
  rewrite (@isdigit_not_char a "+" Ha eq_refl).
  rewrite (@digit_run_all _ Hd).
  reflexivity.
Qed.

Lemma dec_digits_acc : forall fuel n acc,
  dec_digits fuel n acc = dec_digits fuel n [] ++ acc.
Proof.
  induction fuel as [|fuel IH]; intros n acc; simpl; auto.
  destruct (n <? 10); auto.
  rewrite IH, (IH _ [_]), <- app_assoc. reflexivity.
Qed.

Lemma dec_digits_small fuel n :
  n < 10 -> dec_digits fuel n [] = [digit_char_of (n mod 10)].
Proof.
  intros H. destruct fuel; simpl; auto.
  apply Z.ltb_lt in H. now rewrite H.
Qed.

Lemma dec_digits_step fuel n :
  10 <= n ->
  dec_digits (S fuel) n [] =
    dec_digits fuel (n / 10) [] ++ [digit_char_of (n mod 10)].
Proof.
  intros H. simpl. apply Z.ltb_ge in H. rewrite H.
  now rewrite dec_digits_acc.
Qed.

Lemma dec_digits_fuel : forall f f' n,
  0 <= n < 2 ^ (Z.of_nat f + 1) -> n < 2 ^ (Z.of_nat f' + 1) ->
  dec_digits f n [] = dec_digits f' n [].
Proof.
  induction f as [|f IH]; intros f' n Hn Hn'.
  - simpl Z.of_nat in Hn. change (2 ^ (0 + 1)) with 2 in Hn.
    rewrite !dec_digits_small by lia. reflexivity.
  - destruct (Z_lt_ge_dec n 10) as [Hs|Hl].
    + rewrite !dec_digits_small by lia. reflexivity.
    + destruct f' as [|f'].
      { simpl Z.of_nat in Hn'. change (2 ^ (0 + 1)) with 2 in Hn'. lia. }
      rewrite !dec_digits_step by lia. f_equal.
      replace (Z.of_nat (S f) + 1) with (Z.succ (Z.of_nat f + 1)) in Hn
        by lia.
      replace (Z.of_nat (S f') + 1) with (Z.succ (Z.of_nat f' + 1)) in Hn'
        by lia.
      rewrite Z.pow_succ_r in Hn, Hn' by lia.
      apply IH.
      * split; [apply Z.div_pos; lia|].
        apply Z.div_lt_upper_bound; lia.
      * apply Z.div_lt_upper_bound; lia.
Qed.

Lemma dec_small n : 0 <= n < 10 -> dec n = [digit_char_of n].
Proof.
  intros H. unfold dec. rewrite dec_digits_small by lia.
  now rewrite Z.mod_small by lia.
Qed.

Lemma dec_step n :
  10 <= n -> dec n = dec (n / 10) ++ [digit_char_of (n mod 10)].
Proof.
  intros H. unfold dec.
  assert (Hlog : 3 <= Z.log2 n).
  { change 3 with (Z.log2 8). apply Z.log2_le_mono. lia. }
  destruct (Z.to_nat (Z.log2 n)) as [|f] eqn:Ef; [lia|].
  rewrite dec_digits_step by lia. f_equal.
  assert (Hq : 1 <= n / 10).
  { apply Z.div_le_lower_bound; lia. }
  pose proof (Z.log2_spec n ltac:(lia)) as [_ Hup].
  pose proof (Z.log2_spec (n / 10) ltac:(lia)) as [_ Hup'].
  pose proof (Z.log2_nonneg (n / 10)).
  apply dec_digits_fuel.
  - split; [lia|].
    replace (Z.of_nat f + 1) with (Z.log2 n) by lia.
    replace (Z.succ (Z.log2 n)) with (Z.log2 n + 1) in Hup by lia.
    rewrite Z.pow_add_r in Hup by lia.
    apply Z.div_lt_upper_bound; lia.
  - rewrite Z2Nat.id by lia.
    now replace (Z.succ (Z.log2 (n / 10))) with (Z.log2 (n / 10) + 1)
      in Hup' by lia.
Qed.

(** [dec] writes a canonical numeral of the value. *)
Lemma dec_spec n :
  0 <= n ->
  decimal_value (dec n) = n /\ canonical_numeral (dec n).
Proof.
  intros Hn. generalize Hn. pattern n. apply Z_lt_induction; [|exact Hn].
  clear n Hn. intros n IH Hpos.
  destruct (Z_lt_ge_dec n 10) as [Hs|Hl].
  - rewrite dec_small by lia. split.
    + unfold decimal_value. cbn [fold_left].
      rewrite digit_val_digit_char; lia.
    + unfold canonical_numeral. split; [discriminate|]. split.
      * cbn [forallb]. rewrite isdigit_digit_char; auto; lia.
      * destruct (Z.eq_dec n 0) as [->|Hnz]; [left; reflexivity|].
        right. cbn [hd]. intros E.
        apply (f_equal digit_val) in E.
        rewrite digit_val_digit_char in E by lia.
        change (digit_val "0") with 0 in E. lia.
  - rewrite dec_step by lia.
    assert (Hq : 0 <= n / 10 < n).
    { split; [apply Z.div_pos; lia | apply Z.div_lt; lia]. }
    destruct (IH _ Hq ltac:(lia)) as [Hv (Hne & Hd & Hc)].
    pose proof (Z.mod_pos_bound n 10 ltac:(lia)) as Hm.
    split.
    + rewrite decimal_value_snoc, Hv, digit_val_digit_char by lia.
      symmetry. apply Z.div_mod. lia.
    + unfold canonical_numeral. split; [|split].
      * destruct (dec (n / 10)); [congruence | discriminate].
      * rewrite forallb_app, Hd. simpl.
        rewrite isdigit_digit_char; auto; lia.
      * right. destruct Hc as [Hz|Hh].
        -- rewrite Hz in Hv. change (decimal_value (bs "0")) with 0 in Hv.
           assert (10 <= n) by lia.
           assert (1 <= n / 10) by (apply Z.div_le_lower_bound; lia). lia.
        -- destruct (dec (n / 10)); [congruence | exact Hh].
Qed.

End Numerals.

Section NumeralRoundTrip.

Local Open Scope Z_scope.


End NumeralRoundTrip.

(** ** The method registry *)

Section MethodFacts.

Lemma code_str m : method.code (method.str m) = Ok m.
Proof. destruct m; reflexivity. Qed.

Lemma method_tokens_str tok :
  In tok method_tokens <-> exists m, tok = method.str m.
Proof.
  split.
  - unfold method_tokens. simpl. intros H.
    repeat (destruct H as [<-|H];
            [first [ now exists GET | now exists POST | now exists PUT
                   | now exists DELETE | now exists OPTIONS | now exists HEAD
                   | now exists TRACE | now exists CONNECT ] |]).
    destruct H.
  - intros [m ->]. destruct m; simpl; auto 12.
Qed.

End MethodFacts.

(** ** The constructor on a line of known shape *)

Section Constructor.

(** The width of [unsigned long] on the target. *)
Variable ulong_bits : Z.

Lemma ctor_too_short (request : bytes) :
  length request < 15 -> Request_line_ctor ulong_bits request = Err InputTooShort.
Proof.
  intros H. unfold Request_line_ctor.
  apply Nat.ltb_lt in H. rewrite H, orb_true_r. reflexivity.
Qed.

Lemma ctor_guard_passed (request : bytes) :
  15 <= length request ->
  (match request with [] => true | _ => false end)
  || (length request <? 15) = false.
Proof.
  intros H. apply orb_false_iff. split.
  - destruct request; [simpl in H; lia | reflexivity].
  - apply Nat.ltb_ge. exact H.
Qed.

Lemma ctor_no_terminator (request : bytes) e :
  15 <= length request -> line_ending request = Err e ->
  Request_line_ctor ulong_bits request = Err e.
Proof.
  intros H E. unfold Request_line_ctor.
  rewrite (ctor_guard_passed _ H), E. reflexivity.
Qed.

Lemma ctor_mismatch (request : bytes) index canon :
  15 <= length request -> line_ending request = Ok (index, canon) ->
  (Request_line_ctor ulong_bits request = Err GrammarMismatch
   <-> regex_match request_line_pattern (substr_to index request) = None).
Proof.
  intros H E. unfold Request_line_ctor.
  rewrite (ctor_guard_passed _ H), E. cbn [bind].
  destruct (regex_match request_line_pattern (substr_to index request)) as [m|].
  - split; [|discriminate].
    destruct (method.code (sub_str m 1)) as [meth|e] eqn:Em; cbn [bind].
    + destruct (stoul ulong_bits (sub_str m 3)) as [maj|e1] eqn:E3; cbn [bind].
      * destruct (stoul ulong_bits (sub_str m 4)) as [min|e2] eqn:E4;
          cbn [bind]; [discriminate|].
        unfold stoul in E4.
        destruct (skip_space (sub_str m 4)) as [|a s];
          [|destruct (Ascii.eqb a "-"); [|destruct (Ascii.eqb a "+")]];
          (destruct (digit_run _); [|destruct (_ <=? _)%Z]); congruence.
      * unfold stoul in E3.
        destruct (skip_space (sub_str m 3)) as [|a s];
          [|destruct (Ascii.eqb a "-"); [|destruct (Ascii.eqb a "+")]];
          (destruct (digit_run _); [|destruct (_ <=? _)%Z]); congruence.
    + unfold method.code in Em.
      destruct (List.find _ _); congruence.
  - tauto.
Qed.

Lemma ctor_shape (request : bytes) index canon ws m t maj min :
  15 <= length request -> line_ending request = Ok (index, canon) ->
  positional_shape (substr_to index request) ws m t maj min ->
  In m method_tokens ->
  Request_line_ctor ulong_bits request =
    (meth <- method.code m ;;
     vmaj <- stoul ulong_bits maj ;;
     vmin <- stoul ulong_bits min ;;
     Ok {| self := {| method_ := meth; uri_ := mkURI t;
                      version_ := mkVersion (to_unsigned vmaj)
                                            (to_unsigned vmin) |};
           request_param :=
             if canon then substr_from (index + 2) request
             else substr_from (index + 1) request |}).
Proof.
  intros H E Hs Hm. unfold Request_line_ctor.
  rewrite (ctor_guard_passed _ H), E. cbn [bind].
  rewrite (regex_match_shape Hs Hm). reflexivity.
Qed.

End Constructor.

(** ** Lines and their terminators *)

Section Terminators.

Lemma forallb_impl (p q : ascii -> bool) (l : bytes) :
  (forall a, p a = true -> q a = true) ->
  forallb p l = true -> forallb q l = true.
Proof.
  intros Hpq. induction l as [|a l IH]; simpl; auto.
  intros H. apply andb_true_iff in H. destruct H as [Ha Hl].
  now rewrite (Hpq _ Ha), IH.
Qed.

Lemma notspace_notLF a : notspace a = true -> notLF a = true.
Proof.
  unfold notspace, notLF. intros H.
  destruct (Ascii.eqb a LF) eqn:E; auto.
  apply Ascii.eqb_eq in E. subst a. discriminate.
Qed.

Lemma isdigit_notLF a : isdigit a = true -> notLF a = true.
Proof.
  unfold notLF. intros H.
  destruct (Ascii.eqb a LF) eqn:E; auto.
  apply Ascii.eqb_eq in E. subst a. discriminate.
Qed.

Lemma str_notLF m : forallb notLF (method.str m) = true.
Proof. destruct m; reflexivity. Qed.

(** A line without line feed, followed by ["\r\n"]: the terminator is
    found right after the line. *)
Lemma find_CRLF_app (line rest : bytes) :
  forallb notLF line = true ->
  find CRLF (line ++ CRLF ++ rest) = Some (length line).
Proof.
  induction line as [|a line IH]; intros H.
  - reflexivity.
  - cbn [forallb] in H. apply andb_true_iff in H. destruct H as [Ha Hl].
    cbn [app find length].
    replace (starts_with CRLF (a :: line ++ CRLF ++ rest)) with false.
    + now rewrite (IH Hl).
    + symmetry. cbn [starts_with CRLF].
      apply andb_false_iff. right.
      destruct line as [|b line]; [reflexivity|].
      cbn [app starts_with]. cbn [forallb] in Hl.
      apply andb_true_iff in Hl. destruct Hl as [Hb _].
      unfold notLF in Hb. apply negb_true_iff in Hb.
      now rewrite Ascii.eqb_sym, Hb.
Qed.


Lemma line_ending_canonical (request : bytes) index :
  line_ending request = Ok (index, true) -> first_at CRLF request index.
Proof.
  unfold line_ending. intros H.
  destruct (find CRLF request) as [i|] eqn:E.
  - inversion H; subst. now apply find_Some.
  - destruct (find_chr LF request); discriminate.
Qed.

Lemma line_ending_tolerant (request : bytes) index :
  line_ending request = Ok (index, false) ->
  first_at [LF] request index /\ ~ occurs CRLF request.
Proof.
  unfold line_ending, find_chr. intros H.
  destruct (find CRLF request) as [i|] eqn:E; [discriminate|].
  destruct (find [LF] request) as [j|] eqn:E'; [|discriminate].
  inversion H; subst. split.
  - now apply find_Some.
  - intros [i Hi]. eapply find_None; eauto.
Qed.

End Terminators.

(** ** The scenarios of the specification, run on the embedding *)

Section Scenarios.

Example scenario_post_lf :
  Request_line_ctor 64 (bs "POST /api HTTP/1.0" ++ [LF])
  = Ok {| self := {| method_ := POST; uri_ := mkURI (bs "/api");
                     version_ := mkVersion 1 0 |};
          request_param := [] |}.
Proof. reflexivity. Qed.

Example scenario_empty : Request_line_ctor 64 [] = Err InputTooShort.
Proof. reflexivity. Qed.

Example scenario_no_terminator :
  Request_line_ctor 64 (bs "GET / HTTP/1.1 and no end") = Err MissingLineTerminator.
Proof. reflexivity. Qed.

Example scenario_two_spaces :
  Request_line_ctor 64 (bs "GET  / HTTP/1.1" ++ CRLF) = Err GrammarMismatch.
Proof. reflexivity. Qed.

Example scenario_tab_separator :
  Request_line_ctor 64 (bs "GET" ++ [ascii_of_nat 9] ++ bs "/ HTTP/1.1" ++ CRLF)
  = Err GrammarMismatch.
Proof. reflexivity. Qed.

Example scenario_trailing_bytes :
  Request_line_ctor 64 (bs "GET / HTTP/1.1 " ++ CRLF) = Err GrammarMismatch.
Proof. reflexivity. Qed.

Example scenario_leading_space :
  Request_line_ctor 64 (bs "   CONNECT a:443 HTTP/2.10" ++ [LF] ++ bs "rest")
  = Ok {| self := {| method_ := CONNECT; uri_ := mkURI (bs "a:443");
                     version_ := mkVersion 2 10 |};
          request_param := bs "rest" |}.
Proof. reflexivity. Qed.

End Scenarios.

(** * The claims *)

Unset Implicit Arguments.

(** A concrete line is split into its positions by computation, and a
    concrete token is compared with the eight of the set. *)
Ltac shape_by_computation :=
  unfold positional_shape; repeat split; try reflexivity; discriminate.

Ltac not_a_method_token :=
  let H := fresh "H" in
  simpl; intros H;
  repeat (destruct H as [H|H]; [discriminate H|]); exact H.

Section GrammarMatch.

Lemma line_ending_total (request : bytes) :
  occurs CRLF request \/ occurs [LF] request ->
  exists index canon, line_ending request = Ok (index, canon).
Proof.
  intros H. unfold line_ending, find_chr.
  destruct (find CRLF request) as [i|] eqn:E; [eauto|].
  destruct (find [LF] request) as [j|] eqn:E'; [eauto|].
  exfalso. destruct H as [[i Hi]|[i Hi]].
  - exact (@find_None CRLF request E i Hi).
  - exact (@find_None [LF] request E' i Hi).
Qed.

End GrammarMatch.

(** C1: for an input of at least 15 bytes that contains a line terminator,
    the bytes before the terminator pass the grammar match exactly when they
    are an optional white-space run, one of the eight method tokens, one
    space, a non-empty target without white space, one space, ["HTTP/"],
    one or more digits, ["."] and one or more digits with nothing after
    them; on any other line the constructor fails with [GrammarMismatch],
    and on a line of this shape it does not. *)
Theorem grammar_match_decides (ulong_bits : Z) (request : bytes) :
  15 <= length request ->
  occurs CRLF request \/ occurs [LF] request ->
  exists index canon,
    line_ending request = Ok (index, canon)
    /\ ((exists m, regex_match request_line_pattern
                     (substr_to index request) = Some m)
        <-> request_line_shape (substr_to index request))
    /\ (~ request_line_shape (substr_to index request) ->
        Request_line_ctor ulong_bits request = Err GrammarMismatch)
    /\ (request_line_shape (substr_to index request) ->
        Request_line_ctor ulong_bits request <> Err GrammarMismatch).
Proof.
  intros Hlen Hterm.
  destruct (line_ending_total request Hterm) as (index & canon & E).
  exists index, canon. split; [exact E|].
  pose proof (regex_match_iff_shape (substr_to index request)) as Hiff.
  pose proof (@ctor_mismatch ulong_bits request index canon Hlen E) as Hmis.
  split; [exact Hiff|]. split.
  - intros Hn. apply Hmis.
    destruct (regex_match request_line_pattern (substr_to index request))
      as [m|] eqn:Em; auto.
    exfalso. apply Hn, Hiff. eauto.
  - intros Hs Herr. apply Hmis in Herr.
    apply Hiff in Hs. destruct Hs as [m Hm]. congruence.
Qed.

Lemma grammar_match_decides_witness :
  exists index canon,
    line_ending (bs "GET / HTTP/1.1" ++ CRLF) = Ok (index, canon)
    /\ ((exists m, regex_match request_line_pattern
                     (substr_to index (bs "GET / HTTP/1.1" ++ CRLF)) = Some m)
        <-> request_line_shape (substr_to index (bs "GET / HTTP/1.1" ++ CRLF)))
    /\ (~ request_line_shape (substr_to index (bs "GET / HTTP/1.1" ++ CRLF)) ->
        Request_line_ctor 64 (bs "GET / HTTP/1.1" ++ CRLF) = Err GrammarMismatch)
    /\ (request_line_shape (substr_to index (bs "GET / HTTP/1.1" ++ CRLF)) ->
        Request_line_ctor 64 (bs "GET / HTTP/1.1" ++ CRLF) <> Err GrammarMismatch).
Proof.
  apply (grammar_match_decides 64 (bs "GET / HTTP/1.1" ++ CRLF)).
  - simpl. lia.
  - left. exists 14, (bs "GET / HTTP/1.1"), []. split; reflexivity.
Defined.

(** C2: the terminator is the first ["\r\n"] of the whole input, whatever
    line feeds come before it; only when the input has no ["\r\n"] at all is
    it the first line feed; the line handed to the grammar match is the
    prefix before the terminator; with neither ["\r\n"] nor a line feed the
    constructor fails with [MissingLineTerminator].  The search runs on the
    inputs that passed the length guard. *)
Theorem terminator_selection (ulong_bits : Z) (request : bytes) :
  15 <= length request ->
  (forall i, first_at CRLF request i ->
     line_ending request = Ok (i, true)
     /\ (Request_line_ctor ulong_bits request = Err GrammarMismatch
         <-> regex_match request_line_pattern (substr_to i request) = None))
  /\ (~ occurs CRLF request ->
      forall j, first_at [LF] request j ->
        line_ending request = Ok (j, false)
        /\ (Request_line_ctor ulong_bits request = Err GrammarMismatch
            <-> regex_match request_line_pattern (substr_to j request) = None))
  /\ (~ occurs CRLF request -> ~ occurs [LF] request ->
      line_ending request = Err MissingLineTerminator
      /\ Request_line_ctor ulong_bits request = Err MissingLineTerminator).
Proof.
  intros Hlen. split; [|split].
  - intros i Hi.
    assert (E : line_ending request = Ok (i, true)).
    { unfold line_ending. now rewrite (first_at_find Hi). }
    split; [exact E|]. exact (@ctor_mismatch ulong_bits request i true Hlen E).
  - intros Hno j Hj.
    assert (E : line_ending request = Ok (j, false)).
    { unfold line_ending, find_chr.
      destruct (find CRLF request) as [i|] eqn:Ei.
      - exfalso. apply Hno. exists i. now apply find_Some.
      - now rewrite (first_at_find Hj). }
    split; [exact E|]. exact (@ctor_mismatch ulong_bits request j false Hlen E).
  - intros Hno Hno'.
    assert (E : line_ending request = Err MissingLineTerminator).
    { unfold line_ending, find_chr.
      destruct (find CRLF request) as [i|] eqn:Ei.
      - exfalso. apply Hno. exists i. now apply find_Some.
      - destruct (find [LF] request) as [j|] eqn:Ej; auto.
        exfalso. apply Hno'. exists j. now apply find_Some. }
    split; [exact E|]. exact (@ctor_no_terminator ulong_bits request _ Hlen E).
Qed.

(** A line feed at position 0 and the first ["\r\n"] at position 15: the
    line is the 15 bytes before the ["\r\n"]. *)
Lemma terminator_selection_witness :
  line_ending (LF :: bs "GET / HTTP/1.1" ++ CRLF) = Ok (15, true)
  /\ (Request_line_ctor 64 (LF :: bs "GET / HTTP/1.1" ++ CRLF)
        = Err GrammarMismatch
      <-> regex_match request_line_pattern
            (substr_to 15 (LF :: bs "GET / HTTP/1.1" ++ CRLF)) = None).
Proof.
  refine (proj1 (terminator_selection 64
                   (LF :: bs "GET / HTTP/1.1" ++ CRLF) _) 15 _).
  - simpl. lia.
  - apply find_Some. reflexivity.
Defined.

(** C3: an input of fewer than 15 bytes, the empty one included, fails
    with [InputTooShort], whatever it contains: the guard comes before the
    search for a terminator. *)
Theorem short_input_rejected (ulong_bits : Z) (request : bytes) :
  length request < 15 ->
  Request_line_ctor ulong_bits request = Err InputTooShort.
Proof. apply ctor_too_short. Qed.

Lemma short_input_rejected_witness :
  Request_line_ctor 64 (bs "GET /" ++ CRLF) = Err InputTooShort
  /\ Request_line_ctor 64 [] = Err InputTooShort
  /\ Request_line_ctor 64 (bs "no terminator") = Err InputTooShort.
Proof.
  split; [|split].
  - apply (short_input_rejected 64 (bs "GET /" ++ CRLF)). simpl. lia.
  - apply (short_input_rejected 64 []). simpl. lia.
  - apply (short_input_rejected 64 (bs "no terminator")). simpl. lia.
Defined.

(** Whatever the constructor does to its parameter, the buffer of the
    caller is the one it passed. *)
Lemma construct_keeps_buffer (ulong_bits : Z) (buf buf' : bytes)
    (rl : Request_line) :
  construct ulong_bits buf = Ok (rl, buf') -> buf' = buf.
Proof.
  unfold construct.
  destruct (Request_line_ctor ulong_bits buf); simpl; congruence.
Qed.

(** C4: on the input of the first scenario the constructor does compute
    the rest of the message, ["Host: x\r\n\r\n"], but in its own by-value
    parameter [request]: the caller gets the object alone, and its buffer
    still starts at the request line.  No resume offset reaches the
    caller. *)
Theorem resume_offset_stays_local :
  Request_line_ctor 64
    (bs "GET / HTTP/1.1" ++ CRLF ++ bs "Host: x" ++ CRLF ++ CRLF)
    = Ok {| self := Request_line_default;
            request_param := bs "Host: x" ++ CRLF ++ CRLF |}
  /\ construct 64
       (bs "GET / HTTP/1.1" ++ CRLF ++ bs "Host: x" ++ CRLF ++ CRLF)
     = Ok (Request_line_default,
           bs "GET / HTTP/1.1" ++ CRLF ++ bs "Host: x" ++ CRLF ++ CRLF).
Proof. split; reflexivity. Qed.

(** C5, as amended: a line with the positions of a request line whose
    method token is not one of the eight tokens is refused by the grammar
    match itself: the constructor fails with [GrammarMismatch] and builds
    no object, so no method is normalized or substituted. *)
Theorem unknown_method_is_mismatch (ulong_bits : Z) (request : bytes)
    (index : nat) (canon : bool) (ws m target maj min : bytes) :
  15 <= length request ->
  line_ending request = Ok (index, canon) ->
  positional_shape (substr_to index request) ws m target maj min ->
  ~ In m method_tokens ->
  Request_line_ctor ulong_bits request = Err GrammarMismatch
  /\ (forall x, Request_line_ctor ulong_bits request <> Ok x).
Proof.
  intros Hlen E Hs Hm.
  assert (H : Request_line_ctor ulong_bits request = Err GrammarMismatch).
  { apply (@ctor_mismatch ulong_bits request index canon Hlen E).
    exact (regex_match_unknown_method Hs Hm). }
  split; [exact H|]. intros x. rewrite H. discriminate.
Qed.

Lemma unknown_method_is_mismatch_witness :
  Request_line_ctor 64 (bs "get / HTTP/1.1" ++ CRLF) = Err GrammarMismatch
  /\ (forall x, Request_line_ctor 64 (bs "get / HTTP/1.1" ++ CRLF) <> Ok x).
Proof.
  apply (unknown_method_is_mismatch 64 (bs "get / HTTP/1.1" ++ CRLF)
           14 true [] (bs "get") (bs "/") (bs "1") (bs "1")).
  - simpl. lia.
  - reflexivity.
  - shape_by_computation.
  - not_a_method_token.
Defined.

(** C5, as stated, fails on the third scenario: ["FOO / HTTP/1.1\r\n"]
    has the positions of a request line and a method token outside the
    set, and the failure is [GrammarMismatch], not [UnknownMethod]. *)
Lemma unknown_method_not_reported :
  positional_shape (substr_to 14 (bs "FOO / HTTP/1.1" ++ CRLF))
    [] (bs "FOO") (bs "/") (bs "1") (bs "1")
  /\ ~ In (bs "FOO") method_tokens
  /\ line_ending (bs "FOO / HTTP/1.1" ++ CRLF) = Ok (14, true)
  /\ Request_line_ctor 64 (bs "FOO / HTTP/1.1" ++ CRLF) = Err GrammarMismatch
  /\ Request_line_ctor 64 (bs "FOO / HTTP/1.1" ++ CRLF) <> Err UnknownMethod.
Proof.
  split; [|split; [|split; [|split]]].
  - shape_by_computation.
  - not_a_method_token.
  - reflexivity.
  - reflexivity.
  - discriminate.
Qed.

(** C10: a setter replaces its own field and leaves the two others as
    they are; the accessors return their field and leave the object as it
    is. *)
Theorem setters_frame (this : Request_line) (m : Method) (u : URI)
    (v : Version) :
  (method_ (snd (set_method m this)) = m
   /\ uri_ (snd (set_method m this)) = uri_ this
   /\ version_ (snd (set_method m this)) = version_ this)
  /\ (uri_ (snd (set_uri u this)) = u
      /\ method_ (snd (set_uri u this)) = method_ this
      /\ version_ (snd (set_uri u this)) = version_ this)
  /\ (version_ (snd (set_version v this)) = v
      /\ method_ (snd (set_version v this)) = method_ this
      /\ uri_ (snd (set_version v this)) = uri_ this)
  /\ (method this = (method_ this, this)
      /\ uri this = (uri_ this, this)
      /\ version this = (version_ this, this)).
Proof. repeat split. Qed.

Section VersionAndRendering.

Local Open Scope Z_scope.

Lemma str_token m : In (method.str m) method_tokens.
Proof. apply method_tokens_str. eauto. Qed.

(** The fields decoded from a line of known shape whose method token is
    in the set: everything hinges on the two calls of [std::stoul]. *)
Lemma ctor_decoded (ulong_bits : Z) (request : bytes) index canon
      ws meth target maj min :
  (15 <= length request)%nat ->
  line_ending request = Ok (index, canon) ->
  positional_shape (substr_to index request) ws (method.str meth)
                   target maj min ->
  Request_line_ctor ulong_bits request =
    if (2 ^ ulong_bits <=? decimal_value maj)
       || (2 ^ ulong_bits <=? decimal_value min)
    then Err InvalidVersionNumber
    else Ok {| self := {| method_ := meth; uri_ := mkURI target;
                          version_ :=
                            mkVersion (to_unsigned (decimal_value maj))
                                      (to_unsigned (decimal_value min)) |};
               request_param :=
                 if canon then substr_from (index + 2) request
                 else substr_from (index + 1) request |}.
Proof.
  intros Hlen E Hs.
  rewrite (@ctor_shape ulong_bits request index canon ws (method.str meth)
             target maj min Hlen E Hs (str_token meth)).
  destruct Hs as (_ & _ & _ & _ & _ & _ & Hmaj & Hmajd & Hmin & Hmind).
  rewrite code_str. cbn [bind].
  rewrite (@stoul_digits ulong_bits maj Hmaj Hmajd).
  rewrite (@stoul_digits ulong_bits min Hmin Hmind).
  destruct (2 ^ ulong_bits <=? decimal_value maj); cbn [bind orb];
    [reflexivity|].
  destruct (2 ^ ulong_bits <=? decimal_value min); reflexivity.
Qed.

End VersionAndRendering.

(** A version number within the range of [unsigned long] is narrowed to
    [unsigned] by the cast. *)
Lemma version_narrowed (ulong_bits : Z) (request : bytes)
    (index : nat) (canon : bool) (ws target maj min : bytes) (meth : Method) :
  15 <= length request ->
  line_ending request = Ok (index, canon) ->
  positional_shape (substr_to index request) ws (method.str meth)
                   target maj min ->
  (decimal_value maj < 2 ^ ulong_bits)%Z ->
  (decimal_value min < 2 ^ ulong_bits)%Z ->
  exists x,
    Request_line_ctor ulong_bits request = Ok x
    /\ version_ (self x) =
         mkVersion (decimal_value maj mod 2 ^ 32)
                   (decimal_value min mod 2 ^ 32).
Proof.
  intros Hlen E Hs H1 H2.
  rewrite (ctor_decoded ulong_bits request index canon ws meth target
             maj min Hlen E Hs).
  replace ((2 ^ ulong_bits <=? decimal_value maj)%Z
           || (2 ^ ulong_bits <=? decimal_value min)%Z) with false.
  - eexists. split; reflexivity.
  - symmetry. apply orb_false_iff. rewrite !Z.leb_gt. auto.
Qed.

(** C6, as amended: the decoding of the version fails with
    [InvalidVersionNumber] whenever the major or the minor digit run
    exceeds the range of [unsigned long], the type [std::stoul] converts
    to.  Where [unsigned long] is 32 bits wide, that is every overflow of
    [unsigned]. *)
Theorem version_overflow_reported (ulong_bits : Z) (request : bytes)
    (index : nat) (canon : bool) (ws target maj min : bytes) (meth : Method) :
  15 <= length request ->
  line_ending request = Ok (index, canon) ->
  positional_shape (substr_to index request) ws (method.str meth)
                   target maj min ->
  (2 ^ ulong_bits <= decimal_value maj
   \/ 2 ^ ulong_bits <= decimal_value min)%Z ->
  Request_line_ctor ulong_bits request = Err InvalidVersionNumber.
Proof.
  intros Hlen E Hs H.
  rewrite (ctor_decoded ulong_bits request index canon ws meth target
             maj min Hlen E Hs).
  replace ((2 ^ ulong_bits <=? decimal_value maj)%Z
           || (2 ^ ulong_bits <=? decimal_value min)%Z) with true;
    [reflexivity|].
  symmetry. apply orb_true_iff. rewrite !Z.leb_le. exact H.
Qed.

(** With a 64-bit [unsigned long] a major number of 2^64 is reported,
    and with a 32-bit one a major number of 2^32. *)
Lemma version_overflow_reported_witness :
  Request_line_ctor 64 (bs "GET / HTTP/18446744073709551616.1" ++ CRLF)
    = Err InvalidVersionNumber
  /\ Request_line_ctor 32 (bs "GET / HTTP/4294967296.1" ++ CRLF)
     = Err InvalidVersionNumber.
Proof.
  split.
  - apply (version_overflow_reported 64
             (bs "GET / HTTP/18446744073709551616.1" ++ CRLF)
             33 true [] (bs "/") (bs "18446744073709551616") (bs "1") GET).
    + simpl. lia.
    + reflexivity.
    + shape_by_computation.
    + left. vm_compute. discriminate.
  - apply (version_overflow_reported 32
             (bs "GET / HTTP/4294967296.1" ++ CRLF)
             23 true [] (bs "/") (bs "4294967296") (bs "1") GET).
    + simpl. lia.
    + reflexivity.
    + shape_by_computation.
    + left. vm_compute. discriminate.
Defined.

(** C6, as stated, fails where [unsigned long] is 64 bits wide: a major
    number of 2^32 overflows [unsigned], and the constructor succeeds with
    the wrapped value 0. *)
Lemma version_overflow_wraps :
  (2 ^ UINT_BITS <= decimal_value (bs "4294967296"))%Z
  /\ Request_line_ctor 64 (bs "GET / HTTP/4294967296.1" ++ CRLF)
     = Ok {| self := {| method_ := GET; uri_ := mkURI (bs "/");
                        version_ := mkVersion 0 1 |};
             request_param := [] |}.
Proof. split; [vm_compute; discriminate | reflexivity]. Qed.

Section Rendering.

Local Open Scope Z_scope.

Lemma str_shape m :
  method.str m <> [] /\ forallb notspace (method.str m) = true.
Proof. apply (@method_token_nonspace (method.str m)), str_token. Qed.

Lemma to_unsigned_small v : 0 <= v < 2 ^ 32 -> to_unsigned v = v.
Proof. intros H. unfold to_unsigned, UINT_BITS. now apply Z.mod_small. Qed.

Lemma str_length m : (3 <= length (method.str m))%nat.
Proof. destruct m; simpl; lia. Qed.

Lemma nonempty_length (s : bytes) : s <> [] -> (1 <= length s)%nat.
Proof. destruct s; [congruence | simpl; lia]. Qed.

(** The line of section 4.4 before its ["\r\n"]. *)
Lemma rendered_line_shape m target a b :
  target <> [] -> forallb notspace target = true -> 0 <= a -> 0 <= b ->
  positional_shape
    (method.str m ++ [SP] ++ target ++ [SP] ++ bs "HTTP/" ++ dec a
       ++ bs "." ++ dec b)
    [] (method.str m) target (dec a) (dec b).
Proof.
  intros Ht Hts Ha Hb.
  destruct (@dec_spec a Ha) as [_ (Hane & Had & _)].
  destruct (@dec_spec b Hb) as [_ (Hbne & Hbd & _)].
  destruct (str_shape m) as [Hm Hms].
  unfold positional_shape. repeat split; auto.
Qed.

Lemma rendered_line_notLF m target a b :
  forallb notspace target = true -> 0 <= a -> 0 <= b ->
  forallb notLF
    (method.str m ++ [SP] ++ target ++ [SP] ++ bs "HTTP/" ++ dec a
       ++ bs "." ++ dec b) = true.
Proof.
  intros Hts Ha Hb.
  destruct (@dec_spec a Ha) as [_ (_ & Had & _)].
  destruct (@dec_spec b Hb) as [_ (_ & Hbd & _)].
  rewrite !forallb_app, str_notLF.
  rewrite (@forallb_impl notspace notLF target notspace_notLF Hts).
  rewrite (@forallb_impl isdigit notLF (dec a) isdigit_notLF Had).
  rewrite (@forallb_impl isdigit notLF (dec b) isdigit_notLF Hbd).
  reflexivity.
Qed.





Variable ulong_bits : Z.

(** The line of section 4.4 for a well-formed object, followed by any
    bytes, is read back as that object, and [request] is left at those
    bytes. *)
Lemma ctor_wire_line_app (this : Request_line) (rest : bytes) :
  32 <= ulong_bits ->
  well_formed this ->
  Request_line_ctor ulong_bits (wire_line this ++ rest)
    = Ok {| self := this; request_param := rest |}.
Proof.
  destruct this as [m [target] [a b]].
  unfold well_formed, UINT_BITS.
  cbn [uri_ uri_str version_ major minor].
  intros HW (Ht & Hts & Ha & Hb).
  set (line := method.str m ++ [SP] ++ target ++ [SP] ++ bs "HTTP/" ++ dec a
                 ++ bs "." ++ dec b).
  assert (Hbuf : wire_line {| method_ := m; uri_ := mkURI target;
                              version_ := mkVersion a b |} ++ rest
                 = line ++ CRLF ++ rest).
  { unfold wire_line, line.
    cbn [method_ uri_ uri_str version_ major minor].
    rewrite <- !app_assoc. reflexivity. }
  rewrite Hbuf.
  assert (HnoLF : forallb notLF line = true).
  { apply rendered_line_notLF; [exact Hts | lia | lia]. }
  assert (E : line_ending (line ++ CRLF ++ rest) = Ok (length line, true)).
  { unfold line_ending. now rewrite (@find_CRLF_app line rest HnoLF). }
  assert (Hfirst : substr_to (length line) (line ++ CRLF ++ rest) = line).
  { unfold substr_to.
    now rewrite firstn_app, Nat.sub_diag, firstn_all, app_nil_r. }
  assert (Hs : positional_shape
                 (substr_to (length line) (line ++ CRLF ++ rest))
                 [] (method.str m) target (dec a) (dec b)).
  { rewrite Hfirst.
    apply rendered_line_shape; [exact Ht | exact Hts | lia | lia]. }
  assert (Hlen : (15 <= length (line ++ CRLF ++ rest))%nat).
  { unfold line. rewrite !length_app.
    pose proof (str_length m).
    pose proof (nonempty_length target Ht).
    destruct (@dec_spec a (proj1 Ha)) as [_ (Hane & _)].
    destruct (@dec_spec b (proj1 Hb)) as [_ (Hbne & _)].
    pose proof (nonempty_length (dec a) Hane).
    pose proof (nonempty_length (dec b) Hbne).
    simpl. lia. }
  rewrite (ctor_decoded ulong_bits (line ++ CRLF ++ rest) (length line) true
             [] m target (dec a) (dec b) Hlen E Hs).
  destruct (@dec_spec a (proj1 Ha)) as [Hva _].
  destruct (@dec_spec b (proj1 Hb)) as [Hvb _].
  rewrite Hva, Hvb.
  assert (Hpow : 2 ^ 32 <= 2 ^ ulong_bits).
  { apply Z.pow_le_mono_r; lia. }
  replace ((2 ^ ulong_bits <=? a) || (2 ^ ulong_bits <=? b)) with false.
  - rewrite !to_unsigned_small by lia.
    unfold substr_from.
    rewrite skipn_app, (skipn_all2 line) by lia.
    replace (length line + 2 - length line)%nat with 2%nat by lia.
    reflexivity.
  - symmetry. apply orb_false_iff. rewrite !Z.leb_gt. lia.
Qed.


End Rendering.










(** * Further properties of the constructor and of the rendering *)

Section ConstructorStages.

Variable ulong_bits : Z.

(** The line, its terminator and the rest reassemble the input. *)
Lemma line_ending_split (request : bytes) (index : nat) (canon : bool) :
  line_ending request = Ok (index, canon) ->
  index + length (terminator canon) <= length request
  /\ request = substr_to index request ++ terminator canon
                 ++ substr_from (index + length (terminator canon)) request.
Proof.
  intros E. destruct canon.
  - destruct (@line_ending_canonical request index E) as [Hocc _].
    destruct (@occurs_at_split CRLF request index Hocc) as [Hs Hl]. auto.
  - destruct (@line_ending_tolerant request index E) as [[Hocc _] _].
    destruct (@occurs_at_split [LF] request index Hocc) as [Hs Hl]. auto.
Qed.

Lemma line_ending_error (request : bytes) (e : error) :
  line_ending request = Err e -> e = MissingLineTerminator.
Proof.
  unfold line_ending.
  destruct (find CRLF request); [discriminate|].
  destruct (find_chr LF request); [discriminate|]. congruence.
Qed.

(** What a successful match reports. *)
Lemma regex_match_captures (line : bytes) (m : captures) :
  regex_match request_line_pattern line = Some m ->
  exists ws tok target maj min,
    positional_shape line ws tok target maj min
    /\ In tok method_tokens
    /\ m = line_captures tok target maj min [].
Proof.
  intros H.
  apply (@regex_match_sound request_line_pattern line m) in H.
  exact (@pattern_matches_inv line [] m H).
Qed.

Lemma shape_cases (line : bytes) :
  (regex_match request_line_pattern line = None
   /\ ~ request_line_shape line)
  \/ (exists ws meth target maj min,
        positional_shape line ws (method.str meth) target maj min).
Proof.
  destruct (regex_match request_line_pattern line) as [m|] eqn:E.
  - right. destruct (regex_match_captures line m E)
      as (ws & tok & t & maj & min & Hs & Htok & _).
    apply method_tokens_str in Htok. destruct Htok as [meth ->].
    exists ws, meth, t, maj, min. exact Hs.
  - left. split; [reflexivity|]. intros Hs.
    apply regex_match_iff_shape in Hs. destruct Hs as [m Hm]. congruence.
Qed.

(** A line of the grammar is at least 14 characters long. *)
Lemma shape_min_length (line ws tok target maj min : bytes) :
  positional_shape line ws tok target maj min -> In tok method_tokens ->
  14 <= length line.
Proof.
  intros (-> & _ & _ & _ & Ht & _ & Hmaj & _ & Hmin & _) Htok.
  apply method_tokens_str in Htok. destruct Htok as [meth ->].
  pose proof (str_length meth).
  pose proof (nonempty_length target Ht).
  pose proof (nonempty_length maj Hmaj).
  pose proof (nonempty_length min Hmin).
  rewrite !length_app. simpl. lia.
Qed.

Lemma shape_passes_guard (request : bytes) (index : nat) (canon : bool)
      (ws tok target maj min : bytes) :
  line_ending request = Ok (index, canon) ->
  positional_shape (substr_to index request) ws tok target maj min ->
  In tok method_tokens ->
  15 <= length request.
Proof.
  intros E Hs Htok.
  pose proof (shape_min_length _ _ _ _ _ _ Hs Htok) as Hmin.
  destruct (line_ending_split request index canon E) as [Hb _].
  unfold substr_to in Hmin.
  pose proof (firstn_le_length index request).
  assert (1 <= length (terminator canon)) by (destruct canon; simpl; lia).
  destruct (le_lt_dec index (length request)) as [Hle|Hgt]; [|lia].
  rewrite length_firstn in Hmin. lia.
Qed.

(** The four ways through the constructor. *)
Lemma ctor_cases (request : bytes) :
  (length request < 15
   /\ Request_line_ctor ulong_bits request = Err InputTooShort)
  \/ (15 <= length request
      /\ line_ending request = Err MissingLineTerminator
      /\ Request_line_ctor ulong_bits request = Err MissingLineTerminator)
  \/ (15 <= length request
      /\ exists index canon,
           line_ending request = Ok (index, canon)
           /\ ~ request_line_shape (substr_to index request)
           /\ Request_line_ctor ulong_bits request = Err GrammarMismatch)
  \/ (15 <= length request
      /\ exists index canon ws meth target maj min,
           line_ending request = Ok (index, canon)
           /\ positional_shape (substr_to index request) ws (method.str meth)
                               target maj min
           /\ Request_line_ctor ulong_bits request =
                if ((2 ^ ulong_bits <=? decimal_value maj)
                    || (2 ^ ulong_bits <=? decimal_value min))%Z
                then Err InvalidVersionNumber
                else Ok {| self := {| method_ := meth; uri_ := mkURI target;
                             version_ :=
                               mkVersion (to_unsigned (decimal_value maj))
                                         (to_unsigned (decimal_value min)) |};
                           request_param :=
                             if canon then substr_from (index + 2) request
                             else substr_from (index + 1) request |}).
Proof.
  destruct (le_lt_dec 15 (length request)) as [Hlen|Hshort].
  2:{ left. split; [exact Hshort|].
      exact (@ctor_too_short ulong_bits request Hshort). }
  right.
  destruct (line_ending request) as [[index canon]|e] eqn:E.
  2:{ left. pose proof (line_ending_error request e E). subst e.
      split; [exact Hlen|]. split; [reflexivity|].
      exact (@ctor_no_terminator ulong_bits request _ Hlen E). }
  right.
  destruct (shape_cases (substr_to index request))
    as [[Hnone Hns]|(ws & meth & t & maj & min & Hs)].
  - left. split; [exact Hlen|]. exists index, canon.
    split; [reflexivity|]. split; [exact Hns|].
    exact (proj2 (@ctor_mismatch ulong_bits request index canon Hlen E) Hnone).
  - right. split; [exact Hlen|].
    exists index, canon, ws, meth, t, maj, min.
    split; [reflexivity|]. split; [exact Hs|].
    exact (ctor_decoded ulong_bits request index canon ws meth t maj min
             Hlen E Hs).
Qed.

End ConstructorStages.

Section LinePrefix.

Lemma occurs_at_firstn (pat s : bytes) (i j : nat) :
  occurs_at pat (firstn i s) j ->
  occurs_at pat s j /\ j + length pat <= i.
Proof.
  intros (pre & post & E & Hj). split.
  - exists pre, (post ++ skipn i s). split; [|exact Hj].
    rewrite <- (firstn_skipn i s) at 1. rewrite E.
    now rewrite <- !app_assoc.
  - pose proof (firstn_le_length i s) as Hle.
    assert (Hlen : length (firstn i s) <= i).
    { rewrite length_firstn. lia. }
    rewrite E, !length_app in Hlen. lia.
Qed.

Lemma to_unsigned_range (v : Z) :
  (0 <= to_unsigned v < 2 ^ UINT_BITS)%Z.
Proof. unfold to_unsigned. apply Z.mod_pos_bound. reflexivity. Qed.

End LinePrefix.

(** X1: when the constructor succeeds, the input is the matched line,
    followed by the line ending that was found, followed by what the
    constructor leaves in [request]: the two calls of [substr] of lines
    216 and 218 stay within the input, and nothing of it is lost or read
    twice. *)
Theorem remainder_partition (ulong_bits : Z) (request : bytes)
    (x : ctor_exit) :
  Request_line_ctor ulong_bits request = Ok x ->
  exists index canon,
    line_ending request = Ok (index, canon)
    /\ index + length (terminator canon) <= length request
    /\ request = substr_to index request ++ terminator canon
                   ++ request_param x.
Proof.
  intros Hok.
  destruct (ctor_cases ulong_bits request)
    as [[_ H]|[(_ & _ & H)|[(_ & i & c & _ & _ & H)
       |(_ & i & c & ws & meth & t & maj & min & E & _ & H)]]];
    try (rewrite H in Hok; discriminate).
  rewrite H in Hok.
  destruct ((2 ^ ulong_bits <=? decimal_value maj)%Z
            || (2 ^ ulong_bits <=? decimal_value min)%Z); [discriminate|].
  inversion Hok; subst x; clear Hok. cbn [request_param].
  exists i, c. split; [exact E|].
  destruct (line_ending_split request i c E) as [Hb Hs].
  split; [exact Hb|].
  destruct c; exact Hs.
Qed.

Lemma remainder_partition_witness :
  exists index canon,
    line_ending (bs "PUT /a HTTP/1.0" ++ [LF] ++ bs "body") = Ok (index, canon)
    /\ index + length (terminator canon)
       <= length (bs "PUT /a HTTP/1.0" ++ [LF] ++ bs "body")
    /\ bs "PUT /a HTTP/1.0" ++ [LF] ++ bs "body"
       = substr_to index (bs "PUT /a HTTP/1.0" ++ [LF] ++ bs "body")
           ++ terminator canon ++ bs "body".
Proof.
  apply (remainder_partition 64 (bs "PUT /a HTTP/1.0" ++ [LF] ++ bs "body")
           {| self := {| method_ := PUT; uri_ := mkURI (bs "/a");
                         version_ := mkVersion 1 0 |};
              request_param := bs "body" |}).
  reflexivity.
Defined.

(** X2: the line handed to the grammar match never contains the line
    ending it was cut at: no ["\r\n"] before a ["\r\n"] ending, no line
    feed before a bare line feed ending; and a bare line feed is only
    taken as the ending of an input without any ["\r\n"]. *)
Theorem line_excludes_terminator (request : bytes) (index : nat)
    (canon : bool) :
  line_ending request = Ok (index, canon) ->
  ~ occurs (terminator canon) (substr_to index request)
  /\ (canon = false -> ~ occurs CRLF request).
Proof.
  intros E. split.
  - intros [j Hj]. unfold substr_to in Hj.
    apply occurs_at_firstn in Hj. destruct Hj as [Hocc Hlt].
    destruct canon.
    + destruct (@line_ending_canonical request index E) as [_ Hmin].
      apply (Hmin j); [simpl in Hlt; lia | exact Hocc].
    + destruct (@line_ending_tolerant request index E) as [[_ Hmin] _].
      apply (Hmin j); [simpl in Hlt; lia | exact Hocc].
  - intros ->. exact (proj2 (@line_ending_tolerant request index E)).
Qed.

Lemma line_excludes_terminator_witness :
  ~ occurs (terminator true)
      (substr_to 15 (LF :: bs "GET / HTTP/1.1" ++ CRLF))
  /\ (true = false -> ~ occurs CRLF (LF :: bs "GET / HTTP/1.1" ++ CRLF)).
Proof.
  apply (line_excludes_terminator (LF :: bs "GET / HTTP/1.1" ++ CRLF) 15 true).
  reflexivity.
Defined.

(** X3: the minimum of 15 in the guard of line 174 turns away no request
    line of the grammar: an input whose line, up to the line ending found
    in it, has the shape of the pattern is at least 15 bytes long, so it
    never fails with [InputTooShort]. *)
Theorem guard_admits_grammar (ulong_bits : Z) (request : bytes)
    (index : nat) (canon : bool) :
  line_ending request = Ok (index, canon) ->
  request_line_shape (substr_to index request) ->
  15 <= length request
  /\ Request_line_ctor ulong_bits request <> Err InputTooShort.
Proof.
  intros E (ws & tok & t & maj & min & Hs & Htok).
  pose proof (shape_passes_guard request index canon ws tok t maj min
                E Hs Htok) as Hlen.
  split; [exact Hlen|].
  destruct (ctor_cases ulong_bits request)
    as [[Hshort _]|[(_ & _ & H)|[(_ & i & c & _ & _ & H)
       |(_ & i & c & ws' & meth & t' & maj' & min' & _ & _ & H)]]];
    [lia | rewrite H; discriminate | rewrite H; discriminate |].
  rewrite H.
  destruct ((2 ^ ulong_bits <=? decimal_value maj')%Z
            || (2 ^ ulong_bits <=? decimal_value min')%Z); discriminate.
Qed.

(** The shortest request there is: 14 bytes of line and a line feed. *)
Lemma guard_admits_grammar_witness :
  15 <= length (bs "GET / HTTP/1.1" ++ [LF])
  /\ Request_line_ctor 64 (bs "GET / HTTP/1.1" ++ [LF]) <> Err InputTooShort.
Proof.
  apply (guard_admits_grammar 64 (bs "GET / HTTP/1.1" ++ [LF]) 14 false).
  - reflexivity.
  - exists [], (bs "GET"), (bs "/"), (bs "1"), (bs "1").
    split; [shape_by_computation | simpl; auto].
Defined.

(** X4: when [std::regex_match] succeeds, the four sub-matches and the
    separators between them make up the line after a run of white space;
    [m[1]] is one of the eight method tokens, [m[2]] a non-empty run
    without white space, [m[3]] and [m[4]] non-empty runs of digits.  So
    [method::code] is only called on a known token and [std::stoul] only
    on digits. *)
Theorem sub_matches_partition (line : bytes) (m : captures) :
  regex_match request_line_pattern line = Some m ->
  (exists ws,
     forallb isspace ws = true
     /\ line = ws ++ sub_str m 1 ++ [SP] ++ sub_str m 2 ++ [SP]
                 ++ bs "HTTP/" ++ sub_str m 3 ++ bs "." ++ sub_str m 4)
  /\ In (sub_str m 1) method_tokens
  /\ (sub_str m 2 <> [] /\ forallb notspace (sub_str m 2) = true)
  /\ (sub_str m 3 <> [] /\ forallb isdigit (sub_str m 3) = true)
  /\ (sub_str m 4 <> [] /\ forallb isdigit (sub_str m 4) = true).
Proof.
  intros H.
  destruct (regex_match_captures line m H)
    as (ws & tok & t & maj & min & Hs & Htok & ->).
  destruct Hs as (-> & Hws & _ & _ & Ht & Hts & Hmaj & Hmajd & Hmin & Hmind).
  change (sub_str (line_captures tok t maj min []) 1) with tok.
  change (sub_str (line_captures tok t maj min []) 2) with t.
  change (sub_str (line_captures tok t maj min []) 3) with maj.
  change (sub_str (line_captures tok t maj min []) 4) with min.
  split; [exists ws; split; [exact Hws | reflexivity]|].
  repeat split; assumption.
Qed.

Lemma sub_matches_partition_witness :
  (exists ws,
     forallb isspace ws = true
     /\ bs "  HEAD /x HTTP/1.1"
        = ws ++ sub_str (line_captures (bs "HEAD") (bs "/x") (bs "1") (bs "1") []) 1
             ++ [SP]
             ++ sub_str (line_captures (bs "HEAD") (bs "/x") (bs "1") (bs "1") []) 2
             ++ [SP] ++ bs "HTTP/"
             ++ sub_str (line_captures (bs "HEAD") (bs "/x") (bs "1") (bs "1") []) 3
             ++ bs "."
             ++ sub_str (line_captures (bs "HEAD") (bs "/x") (bs "1") (bs "1") []) 4)
  /\ In (sub_str (line_captures (bs "HEAD") (bs "/x") (bs "1") (bs "1") []) 1)
        method_tokens
  /\ (sub_str (line_captures (bs "HEAD") (bs "/x") (bs "1") (bs "1") []) 2 <> []
      /\ forallb notspace
           (sub_str (line_captures (bs "HEAD") (bs "/x") (bs "1") (bs "1") []) 2)
         = true)
  /\ (sub_str (line_captures (bs "HEAD") (bs "/x") (bs "1") (bs "1") []) 3 <> []
      /\ forallb isdigit
           (sub_str (line_captures (bs "HEAD") (bs "/x") (bs "1") (bs "1") []) 3)
         = true)
  /\ (sub_str (line_captures (bs "HEAD") (bs "/x") (bs "1") (bs "1") []) 4 <> []
      /\ forallb isdigit
           (sub_str (line_captures (bs "HEAD") (bs "/x") (bs "1") (bs "1") []) 4)
         = true).
Proof.
  apply (sub_matches_partition (bs "  HEAD /x HTTP/1.1")
           (line_captures (bs "HEAD") (bs "/x") (bs "1") (bs "1") [])).
  reflexivity.
Defined.

(** X5: on the sub-matches of a matched line [std::stoul] cannot throw
    [std::invalid_argument]: it converts the whole digit run, and throws
    (here [std::out_of_range]) exactly when the value of the run does not
    fit [unsigned long]. *)
Theorem stoul_on_sub_matches (ulong_bits : Z) (line : bytes) (m : captures) :
  regex_match request_line_pattern line = Some m ->
  stoul ulong_bits (sub_str m 3)
    = (if (2 ^ ulong_bits <=? decimal_value (sub_str m 3))%Z
       then Err InvalidVersionNumber
       else Ok (decimal_value (sub_str m 3)))
  /\ stoul ulong_bits (sub_str m 4)
     = (if (2 ^ ulong_bits <=? decimal_value (sub_str m 4))%Z
        then Err InvalidVersionNumber
        else Ok (decimal_value (sub_str m 4))).
Proof.
  intros H.
  destruct (regex_match_captures line m H)
    as (ws & tok & t & maj & min & Hs & _ & ->).
  destruct Hs as (_ & _ & _ & _ & _ & _ & Hmaj & Hmajd & Hmin & Hmind).
  change (sub_str (line_captures tok t maj min []) 3) with maj.
  change (sub_str (line_captures tok t maj min []) 4) with min.
  split; apply stoul_digits; assumption.
Qed.

Lemma stoul_on_sub_matches_witness :
  stoul 32 (sub_str (line_captures (bs "GET") (bs "/") (bs "007")
                                   (bs "4294967296") []) 3)
    = (if (2 ^ 32 <=? decimal_value
                        (sub_str (line_captures (bs "GET") (bs "/") (bs "007")
                                                (bs "4294967296") []) 3))%Z
       then Err InvalidVersionNumber
       else Ok (decimal_value
                  (sub_str (line_captures (bs "GET") (bs "/") (bs "007")
                                          (bs "4294967296") []) 3)))
  /\ stoul 32 (sub_str (line_captures (bs "GET") (bs "/") (bs "007")
                                      (bs "4294967296") []) 4)
     = (if (2 ^ 32 <=? decimal_value
                         (sub_str (line_captures (bs "GET") (bs "/") (bs "007")
                                                 (bs "4294967296") []) 4))%Z
        then Err InvalidVersionNumber
        else Ok (decimal_value
                   (sub_str (line_captures (bs "GET") (bs "/") (bs "007")
                                           (bs "4294967296") []) 4))).
Proof.
  apply (stoul_on_sub_matches 32 (bs "GET / HTTP/007.4294967296")
           (line_captures (bs "GET") (bs "/") (bs "007") (bs "4294967296") [])).
  reflexivity.
Defined.

Lemma ctor_ok_well_formed (ulong_bits : Z) (request : bytes)
    (x : ctor_exit) :
  Request_line_ctor ulong_bits request = Ok x -> well_formed (self x).
Proof.
  intros Hok.
  destruct (ctor_cases ulong_bits request)
    as [[_ H]|[(_ & _ & H)|[(_ & i & c & _ & _ & H)
       |(_ & i & c & ws & meth & t & maj & min & E & Hs & H)]]];
    try (rewrite H in Hok; discriminate).
  rewrite H in Hok.
  destruct ((2 ^ ulong_bits <=? decimal_value maj)%Z
            || (2 ^ ulong_bits <=? decimal_value min)%Z); [discriminate|].
  inversion Hok; subst x; clear Hok.
  destruct Hs as (_ & _ & _ & _ & Ht & Hts & _).
  unfold well_formed. cbn [self uri_ uri_str version_ major minor].
  repeat split; try assumption; apply to_unsigned_range.
Qed.

(** X6: every object the constructor builds has a non-empty target
    without white space and version numbers in the range of [unsigned],
    whatever the width of [unsigned long]. *)
Theorem parsed_object_well_formed (ulong_bits : Z) (request : bytes)
    (x : ctor_exit) :
  Request_line_ctor ulong_bits request = Ok x -> well_formed (self x).
Proof. exact (ctor_ok_well_formed ulong_bits request x). Qed.

Lemma parsed_object_well_formed_witness :
  well_formed {| method_ := GET; uri_ := mkURI (bs "/");
                 version_ := mkVersion 1 1 |}.
Proof.
  apply (parsed_object_well_formed 64
           (bs "GET / HTTP/4294967297.1" ++ CRLF)
           {| self := {| method_ := GET; uri_ := mkURI (bs "/");
                         version_ := mkVersion 1 1 |};
              request_param := [] |}).
  reflexivity.
Defined.

(** X7: the constructor succeeds exactly on the inputs in which a line
    ending is found, the line before it has the shape of the pattern, and
    both version numbers fit [unsigned long]; the object then holds the
    decoded method, the target as it stands in the line, and the two
    numbers reduced modulo 2^32, and [request] is left at the first byte
    after the line ending. *)
Theorem success_characterisation (ulong_bits : Z) (request : bytes)
    (x : ctor_exit) :
  Request_line_ctor ulong_bits request = Ok x
  <-> exists index canon ws meth target maj min,
        line_ending request = Ok (index, canon)
        /\ positional_shape (substr_to index request) ws (method.str meth)
                            target maj min
        /\ (decimal_value maj < 2 ^ ulong_bits)%Z
        /\ (decimal_value min < 2 ^ ulong_bits)%Z
        /\ x = {| self := {| method_ := meth; uri_ := mkURI target;
                    version_ :=
                      mkVersion (decimal_value maj mod 2 ^ 32)
                                (decimal_value min mod 2 ^ 32) |};
                  request_param :=
                    substr_from (index + length (terminator canon)) request |}.
Proof.
  split.
  - intros Hok.
    destruct (ctor_cases ulong_bits request)
      as [[_ H]|[(_ & _ & H)|[(_ & i & c & _ & _ & H)
         |(_ & i & c & ws & meth & t & maj & min & E & Hs & H)]]];
      try (rewrite H in Hok; discriminate).
    rewrite H in Hok.
    destruct ((2 ^ ulong_bits <=? decimal_value maj)%Z
              || (2 ^ ulong_bits <=? decimal_value min)%Z) eqn:Hov;
      [discriminate|].
    apply orb_false_iff in Hov. rewrite !Z.leb_gt in Hov.
    inversion Hok; subst x; clear Hok.
    exists i, c, ws, meth, t, maj, min.
    split; [exact E|]. split; [exact Hs|].
    split; [tauto|]. split; [tauto|].
    destruct c; reflexivity.
  - intros (i & c & ws & meth & t & maj & min & E & Hs & Hmaj & Hmin & ->).
    assert (Hlen : 15 <= length request).
    { exact (shape_passes_guard request i c ws (method.str meth) t maj min
               E Hs (str_token meth)). }
    rewrite (ctor_decoded ulong_bits request i c ws meth t maj min Hlen E Hs).
    replace ((2 ^ ulong_bits <=? decimal_value maj)%Z
             || (2 ^ ulong_bits <=? decimal_value min)%Z) with false.
    + destruct c; reflexivity.
    + symmetry. apply orb_false_iff. rewrite !Z.leb_gt. auto.
Qed.

(** X8: [InputTooShort] is the error of the inputs of fewer than 15
    bytes and of no other; [MissingLineTerminator] is the error of the
    inputs of at least 15 bytes without a line feed and of no other;
    [GrammarMismatch] is the error of the inputs of at least 15 bytes in
    which a line ending is found after a line that does not have the
    shape of the pattern, and of no other. *)
Theorem early_error_causes (ulong_bits : Z) (request : bytes) :
  (Request_line_ctor ulong_bits request = Err InputTooShort
   <-> length request < 15)
  /\ (Request_line_ctor ulong_bits request = Err MissingLineTerminator
      <-> 15 <= length request /\ ~ occurs [LF] request)
  /\ (Request_line_ctor ulong_bits request = Err GrammarMismatch
      <-> 15 <= length request
          /\ exists index canon,
               line_ending request = Ok (index, canon)
               /\ ~ request_line_shape (substr_to index request)).
Proof.
  assert (Hlf : line_ending request = Err MissingLineTerminator
                <-> ~ occurs [LF] request).
  { split.
    - intros E [i Hi]. unfold line_ending, find_chr in E.
      destruct (find CRLF request); [discriminate|].
      destruct (find [LF] request) eqn:E'; [discriminate|].
      exact (@find_None [LF] request E' i Hi).
    - intros Hno.
      destruct (line_ending request) as [[i c]|e] eqn:E.
      + exfalso. apply Hno. destruct c.
        * destruct (@line_ending_canonical request i E) as [(pre & post & Hs & Hl) _].
          exists (S i), (pre ++ [CR]), post. split.
          -- rewrite Hs. now rewrite <- app_assoc.
          -- rewrite length_app. simpl. lia.
        * destruct (@line_ending_tolerant request i E) as [[Hocc _] _].
          exists i. exact Hocc.
      + now rewrite (line_ending_error request e E). }
  destruct (ctor_cases ulong_bits request)
    as [[Hshort H]|[(Hlen & E & H)|[(Hlen & i & c & E & Hns & H)
       |(Hlen & i & c & ws & meth & t & maj & min & E & Hs & H)]]].
  - rewrite H. repeat split; try discriminate; try lia; intros []; lia.
  - rewrite H. split; [split; [discriminate | lia]|].
    split; [split; [intros _; split; [exact Hlen | now apply Hlf] | reflexivity]|].
    split; [discriminate|].
    intros (_ & i & c & E' & _). congruence.
  - rewrite H. split; [split; [discriminate | lia]|].
    split.
    + split; [discriminate|]. intros [_ Hno].
      apply Hlf in Hno. congruence.
    + split; [intros _; split; [exact Hlen|]; eauto | reflexivity].
  - assert (Hshape : request_line_shape (substr_to i request)).
    { exists ws, (method.str meth), t, maj, min.
      split; [exact Hs | apply str_token]. }
    rewrite H.
    destruct ((2 ^ ulong_bits <=? decimal_value maj)%Z
              || (2 ^ ulong_bits <=? decimal_value min)%Z).
    + split; [split; [discriminate | lia]|].
      split.
      * split; [discriminate|]. intros [_ Hno].
        apply Hlf in Hno. congruence.
      * split; [discriminate|].
        intros (_ & i' & c' & E' & Hns).
        rewrite E in E'. inversion E'; subst. contradiction.
    + split; [split; [discriminate | lia]|].
      split.
      * split; [discriminate|]. intros [_ Hno].
        apply Hlf in Hno. congruence.
      * split; [discriminate|].
        intros (_ & i' & c' & E' & Hns).
        rewrite E in E'. inversion E'; subst. contradiction.
Qed.

(** X9: [InvalidVersionNumber] is the error of the inputs whose line has
    the shape of the pattern and whose major or minor number does not fit
    [unsigned long], and of no other. *)
Theorem version_error_cause (ulong_bits : Z) (request : bytes) :
  Request_line_ctor ulong_bits request = Err InvalidVersionNumber
  <-> exists index canon ws meth target maj min,
        line_ending request = Ok (index, canon)
        /\ positional_shape (substr_to index request) ws (method.str meth)
                            target maj min
        /\ (2 ^ ulong_bits <= decimal_value maj
            \/ 2 ^ ulong_bits <= decimal_value min)%Z.
Proof.
  split.
  - intros Herr.
    destruct (ctor_cases ulong_bits request)
      as [[_ H]|[(_ & _ & H)|[(_ & i & c & _ & _ & H)
         |(_ & i & c & ws & meth & t & maj & min & E & Hs & H)]]];
      try (rewrite H in Herr; discriminate).
    rewrite H in Herr.
    destruct ((2 ^ ulong_bits <=? decimal_value maj)%Z
              || (2 ^ ulong_bits <=? decimal_value min)%Z) eqn:Hov;
      [|discriminate].
    apply orb_true_iff in Hov. rewrite !Z.leb_le in Hov.
    exists i, c, ws, meth, t, maj, min. auto.
  - intros (i & c & ws & meth & t & maj & min & E & Hs & Hov).
    assert (Hlen : 15 <= length request).
    { exact (shape_passes_guard request i c ws (method.str meth) t maj min
               E Hs (str_token meth)). }
    rewrite (ctor_decoded ulong_bits request i c ws meth t maj min Hlen E Hs).
    replace ((2 ^ ulong_bits <=? decimal_value maj)%Z
             || (2 ^ ulong_bits <=? decimal_value min)%Z) with true;
      [reflexivity|].
    symmetry. apply orb_true_iff. rewrite !Z.leb_le. exact Hov.
Qed.

(** X10: the constructor ends in one of five ways: one of the three
    errors of its own throw statements, the range error of [std::stoul], or
    an object.  The error of [method::code] is not among them: the pattern
    lets only the eight tokens through to it. *)
Theorem constructor_outcomes (ulong_bits : Z) (request : bytes) :
  Request_line_ctor ulong_bits request = Err InputTooShort
  \/ Request_line_ctor ulong_bits request = Err MissingLineTerminator
  \/ Request_line_ctor ulong_bits request = Err GrammarMismatch
  \/ Request_line_ctor ulong_bits request = Err InvalidVersionNumber
  \/ exists x, Request_line_ctor ulong_bits request = Ok x.
Proof.
  destruct (ctor_cases ulong_bits request)
    as [[_ H]|[(_ & _ & H)|[(_ & i & c & _ & _ & H)
       |(_ & i & c & ws & meth & t & maj & min & E & Hs & H)]]];
    rewrite H; auto.
  destruct ((2 ^ ulong_bits <=? decimal_value maj)%Z
            || (2 ^ ulong_bits <=? decimal_value min)%Z); eauto 6.
Qed.

Section PrefixesAndFollowers.

Lemma find_skip_prefix (a0 : ascii) (pat p s : bytes) :
  forallb (fun b => negb (Ascii.eqb a0 b)) p = true ->
  find (a0 :: pat) (p ++ s)
    = option_map (Nat.add (length p)) (find (a0 :: pat) s).
Proof.
  induction p as [|b p IH]; intros H.
  - simpl. destruct (find (a0 :: pat) s); reflexivity.
  - cbn [forallb] in H. apply andb_true_iff in H. destruct H as [Hb Hp].
    apply negb_true_iff in Hb.
    cbn [app find starts_with]. rewrite Hb. cbn [andb].
    rewrite (IH Hp).
    destruct (find (a0 :: pat) s); reflexivity.
Qed.

Lemma isblank_facts (a : ascii) :
  isblank a = true ->
  isspace a = true /\ Ascii.eqb CR a = false /\ Ascii.eqb LF a = false.
Proof.
  unfold isblank. intros H.
  apply andb_true_iff in H. destruct H as [H Hlf].
  apply andb_true_iff in H. destruct H as [Hsp Hcr].
  apply negb_true_iff in Hlf. apply negb_true_iff in Hcr.
  rewrite (Ascii.eqb_sym CR a), (Ascii.eqb_sym LF a). auto.
Qed.

Lemma line_ending_blank_prefix (p request : bytes) (index : nat)
      (canon : bool) :
  forallb isblank p = true ->
  line_ending request = Ok (index, canon) ->
  line_ending (p ++ request) = Ok (length p + index, canon).
Proof.
  intros Hp. unfold line_ending, find_chr, CRLF.
  rewrite !find_skip_prefix.
  - destruct (find [CR; LF] request) as [i|]; cbn [option_map].
    + intros E; inversion E; reflexivity.
    + destruct (find [LF] request) as [j|]; cbn [option_map];
        intros E; inversion E; reflexivity.
  - apply (@forallb_impl isblank _ p); [|exact Hp].
    intros a Ha. destruct (isblank_facts a Ha) as (_ & _ & ->). reflexivity.
  - apply (@forallb_impl isblank _ p); [|exact Hp].
    intros a Ha. destruct (isblank_facts a Ha) as (_ & -> & _). reflexivity.
Qed.

Lemma shape_blank_prefix (p line ws tok target maj min : bytes) :
  forallb isblank p = true ->
  positional_shape line ws tok target maj min ->
  positional_shape (p ++ line) (p ++ ws) tok target maj min.
Proof.
  intros Hp (-> & Hws & Hrest).
  split; [now rewrite <- app_assoc|]. split; [|exact Hrest].
  rewrite forallb_app, Hws, andb_true_r.
  apply (@forallb_impl isblank isspace p); [|exact Hp].
  intros a Ha. exact (proj1 (isblank_facts a Ha)).
Qed.

(** A line of the grammar ends where the first character that is not a
    digit follows it: two such lines that start the same sequence are the
    same line. *)
Lemma shape_followed_unique
      (l1 ws1 m1 t1 maj1 min1 l2 ws2 m2 t2 maj2 min2 r1 r2 : bytes)
      (a1 a2 : ascii) :
  positional_shape l1 ws1 m1 t1 maj1 min1 ->
  positional_shape l2 ws2 m2 t2 maj2 min2 ->
  isdigit a1 = false -> isdigit a2 = false ->
  l1 ++ a1 :: r1 = l2 ++ a2 :: r2 ->
  l1 = l2 /\ a1 :: r1 = a2 :: r2.
Proof.
  intros (-> & Hws & Hm & Hms & _ & Hts & _ & Hmajd & _ & Hmind)
         (-> & Hws' & Hm' & Hms' & _ & Hts' & _ & Hmajd' & _ & Hmind')
         Ha1 Ha2 E.
  destruct (@notspace_head m1 Hm Hms) as (a & m0 & -> & Ha).
  destruct (@notspace_head m2 Hm' Hms') as (a' & m0' & -> & Ha').
  rewrite <- !app_assoc in E. simpl in E.
  apply (@class_run_unique isspace) in E; auto. destruct E as [-> E].
  rewrite (app_comm_cons m0 _ a), (app_comm_cons m0' _ a') in E.
  apply (@class_run_unique notspace) in E; auto. destruct E as [-> E].
  inversion E as [E1]; clear E.
  apply (@class_run_unique notspace) in E1; auto. destruct E1 as [-> E].
  inversion E as [E1]; clear E.
  apply (@class_run_unique isdigit) in E1; auto. destruct E1 as [-> E].
  inversion E as [E1]; clear E.
  apply (@class_run_unique isdigit) in E1; auto. destruct E1 as [-> E].
  auto.
Qed.

End PrefixesAndFollowers.

(** X11: blanks (spaces, tabs, vertical tabs, form feeds) put before an
    input that the constructor accepts change nothing: the same object is
    built and [request] is left at the same bytes. *)
Theorem leading_blanks_ignored (ulong_bits : Z) (p request : bytes)
    (x : ctor_exit) :
  forallb isblank p = true ->
  Request_line_ctor ulong_bits request = Ok x ->
  Request_line_ctor ulong_bits (p ++ request) = Ok x.
Proof.
  intros Hp Hok.
  destruct (ctor_cases ulong_bits request)
    as [[_ H]|[(_ & _ & H)|[(_ & i & c & _ & _ & H)
       |(Hlen & i & c & ws & meth & t & maj & min & E & Hs & H)]]];
    try (rewrite H in Hok; discriminate).
  rewrite H in Hok.
  destruct ((2 ^ ulong_bits <=? decimal_value maj)%Z
            || (2 ^ ulong_bits <=? decimal_value min)%Z) eqn:Hov;
    [discriminate|].
  inversion Hok; subst x; clear Hok.
  pose proof (line_ending_blank_prefix p request i c Hp E) as E'.
  assert (Hs' : positional_shape
                  (substr_to (length p + i) (p ++ request))
                  (p ++ ws) (method.str meth) t maj min).
  { unfold substr_to. rewrite firstn_app_2.
    apply shape_blank_prefix; assumption. }
  assert (Hlen' : 15 <= length (p ++ request)).
  { rewrite length_app. lia. }
  rewrite (ctor_decoded ulong_bits (p ++ request) (length p + i) c (p ++ ws)
             meth t maj min Hlen' E' Hs').
  rewrite Hov. do 2 f_equal.
  destruct c; unfold substr_from;
    rewrite skipn_app, (skipn_all2 p) by lia; cbn [app]; f_equal; lia.
Qed.

Lemma leading_blanks_ignored_witness :
  Request_line_ctor 64
    ([SP; ascii_of_nat 9; SP] ++ (bs "GET / HTTP/1.1" ++ CRLF ++ bs "rest"))
  = Ok {| self := Request_line_default; request_param := bs "rest" |}.
Proof.
  apply (leading_blanks_ignored 64 [SP; ascii_of_nat 9; SP]
           (bs "GET / HTTP/1.1" ++ CRLF ++ bs "rest")).
  - reflexivity.
  - reflexivity.
Defined.

(** X12: a request line that ends in a bare line feed is rejected as soon
    as a ["\r\n"] occurs anywhere in the input, for instance at the end of
    a header after it: the search for ["\r\n"] comes first, so the line
    handed to the grammar match runs on past the line feed, and the
    constructor fails with [GrammarMismatch]. *)
Theorem lf_line_before_crlf_rejected (ulong_bits : Z) (line rest : bytes) :
  request_line_shape line ->
  occurs CRLF (line ++ LF :: rest) ->
  Request_line_ctor ulong_bits (line ++ LF :: rest) = Err GrammarMismatch.
Proof.
  intros (ws & tok & t & maj & min & Hs & Htok) [j0 Hocc].
  set (request := line ++ LF :: rest) in *.
  destruct (find CRLF request) as [j|] eqn:Ef.
  2:{ exfalso. exact (@find_None CRLF request Ef j0 Hocc). }
  assert (E : line_ending request = Ok (j, true)).
  { unfold line_ending. now rewrite Ef. }
  assert (Hlen : 15 <= length request).
  { unfold request. rewrite length_app.
    pose proof (shape_min_length _ _ _ _ _ _ Hs Htok). simpl. lia. }
  apply (proj2 (@ctor_mismatch ulong_bits request j true Hlen E)).
  destruct (regex_match request_line_pattern (substr_to j request))
    as [m|] eqn:Em; [|reflexivity].
  exfalso.
  destruct (regex_match_captures _ m Em)
    as (ws' & tok' & t' & maj' & min' & Hs' & _ & _).
  destruct (@find_Some CRLF request j Ef) as [(pre & post & Hreq & Hj) _].
  assert (Hpre : substr_to j request = pre).
  { unfold substr_to. rewrite Hreq, <- Hj.
    now rewrite firstn_app, Nat.sub_diag, firstn_all, app_nil_r. }
  rewrite Hpre in Hs'.
  assert (Eq : pre ++ CR :: LF :: post = line ++ LF :: rest).
  { symmetry. exact Hreq. }
  destruct (shape_followed_unique pre ws' tok' t' maj' min'
              line ws tok t maj min (LF :: post) rest CR LF
              Hs' Hs eq_refl eq_refl Eq) as [_ Habs].
  inversion Habs.
Qed.

Lemma lf_line_before_crlf_rejected_witness :
  Request_line_ctor 64 (bs "GET / HTTP/1.1" ++ LF :: bs "Host: x" ++ CRLF)
  = Err GrammarMismatch.
Proof.
  apply (lf_line_before_crlf_rejected 64 (bs "GET / HTTP/1.1")
           (bs "Host: x" ++ CRLF)).
  - exists [], (bs "GET"), (bs "/"), (bs "1"), (bs "1").
    split; [shape_by_computation | simpl; auto].
  - exists 22, (bs "GET / HTTP/1.1" ++ LF :: bs "Host: x"), [].
    split; reflexivity.
Defined.

(** X13: an input that starts with ["\r\n"] is never accepted, whatever
    follows: the line before the first ["\r\n"] is empty, so the failure
    is [GrammarMismatch], or [InputTooShort] when fewer than 13 bytes
    follow. *)
Theorem leading_crlf_rejected (ulong_bits : Z) (rest : bytes) :
  Request_line_ctor ulong_bits (CRLF ++ rest)
  = if length rest <? 13 then Err InputTooShort else Err GrammarMismatch.
Proof.
  destruct (length rest <? 13) eqn:Hl.
  - apply Nat.ltb_lt in Hl.
    apply (@ctor_too_short ulong_bits). simpl. lia.
  - apply Nat.ltb_ge in Hl.
    assert (Hlen : 15 <= length (CRLF ++ rest)) by (simpl; lia).
    assert (E : line_ending (CRLF ++ rest) = Ok (0, true)) by reflexivity.
    apply (proj2 (@ctor_mismatch ulong_bits (CRLF ++ rest) 0 true Hlen E)).
    reflexivity.
Qed.

(** X14: the constructor reads the line made of a method token, a space,
    a non-empty target without white space, a space, ["HTTP/"], and two
    numbers below 2^32 in decimal joined by ["."], ended by ["\r\n"], back
    as exactly that method, target and version, whatever bytes follow the
    line, and leaves [request] at exactly those bytes. *)
Theorem canonical_line_read_back (ulong_bits : Z) (this : Request_line)
    (rest : bytes) :
  (32 <= ulong_bits)%Z ->
  well_formed this ->
  Request_line_ctor ulong_bits
    (method.str (method_ this) ++ [SP] ++ uri_str (uri_ this) ++ [SP]
       ++ bs "HTTP/" ++ dec (major (version_ this)) ++ bs "."
       ++ dec (minor (version_ this)) ++ CRLF ++ rest)
  = Ok {| self := this; request_param := rest |}.
Proof.
  intros HW Hwf.
  pose proof (ctor_wire_line_app ulong_bits this rest HW Hwf) as H.
  unfold wire_line in H. rewrite <- !app_assoc in H. exact H.
Qed.

Lemma canonical_line_read_back_witness :
  Request_line_ctor 32
    (bs "DELETE" ++ [SP] ++ bs "/a?b=c" ++ [SP] ++ bs "HTTP/" ++ dec 2
       ++ bs "." ++ dec 4294967295 ++ CRLF ++ bs "Host: x")
  = Ok {| self := {| method_ := DELETE; uri_ := mkURI (bs "/a?b=c");
                     version_ := mkVersion 2 4294967295 |};
          request_param := bs "Host: x" |}.
Proof.
  apply (canonical_line_read_back 32
           {| method_ := DELETE; uri_ := mkURI (bs "/a?b=c");
              version_ := mkVersion 2 4294967295 |} (bs "Host: x")).
  - lia.
  - unfold well_formed. simpl.
    split; [discriminate|]. split; [reflexivity|]. lia.
Defined.
